(** * FindGoofyGame: the round state machine of [src/components/FindGoofyGame.tsx]

    A shallow embedding of the React component's state and of its event
    handlers and effects, followed by the properties of the round state
    machine and of the character generator.

    Conventions of the embedding:
    - JavaScript numbers that the component only ever computes by integer
      arithmetic (score, time, level) are [Z]; [parseInt] may also return
      [NaN], so the high score is a [JS.number].
    - [Math.random()] is an injected source [random : nat -> Q]; the world
      counts the draws made so far.
    - [localStorage] is a finite map from keys to strings.
    - [setInterval]/[clearInterval] act on the set of live interval ids;
      [timerRef.current] is the id the component remembers.
    - Toast notifications and the mouse position have no influence on the
      state machine and are left out; an [undefined] emoji is the empty
      string.
    - Strings are sequences of bytes; a character outside ASCII is its
      UTF-8 encoding.

    The component is modelled at two grains.  [dispatch] delivers an event
    to a page on which no state update is waiting and runs the renders and
    effects the event causes before anything else happens; [run] and
    [reachable] are built on it.  The interval callback however only
    queues its update, and a click can arrive before that update is
    rendered: [Page], [pageFire], [pageClick] and [pageRender] model the
    queue of waiting updates and are used where that order matters. *)

From Stdlib Require Import ZArith QArith Qround Lia Lqa Ascii String.
From stdpp Require Import gmap strings list fin_maps pretty.

Open Scope Z_scope.

(** ** JavaScript primitives used by the component *)

Module JS.

(** The values [parseInt] can return: [NaN] or an integer.  ([-0] is
    identified with [0]; integers are exact, which is accurate up to
    [MAX_SAFE_INTEGER], 2^53 - 1.) *)
Inductive number : Type :=
| NaN
| Num (z : Z).

(** [a > b] for an integer [a]; any comparison with [NaN] is false. *)
Definition gtb (a : Z) (b : number) : bool :=
  match b with
  | NaN => false
  | Num z => z <? a
  end.

(** [Number.MAX_SAFE_INTEGER] *)
Definition MAX_SAFE_INTEGER : Z := 2 ^ 53 - 1.

(** White space and line terminators of one byte: TAB, LF, VT, FF, CR
    and space. *)
Definition isWhiteSpace (c : ascii) : bool :=
  let n := nat_of_ascii c in
  ((9 <=? n)%nat && (n <=? 13)%nat) || (n =? 32)%nat.

(** White space of two bytes: U+00A0. *)
Definition isWhiteSpace2 (a b : ascii) : bool :=
  (nat_of_ascii a =? 194)%nat && (nat_of_ascii b =? 160)%nat.

(** White space and line terminators of three bytes: U+1680, U+2000 to
    U+200A, U+2028, U+2029, U+202F, U+205F, U+3000 and U+FEFF. *)
Definition isWhiteSpace3 (a b c : ascii) : bool :=
  let x := nat_of_ascii a in
  let y := nat_of_ascii b in
  let z := nat_of_ascii c in
  ((x =? 225) && (y =? 154) && (z =? 128))%nat
  || ((x =? 226) && (y =? 128)
      && (((128 <=? z) && (z <=? 138)) || (z =? 168) || (z =? 169)
          || (z =? 175)))%nat
  || ((x =? 226) && (y =? 129) && (z =? 159))%nat
  || ((x =? 227) && (y =? 128) && (z =? 128))%nat
  || ((x =? 239) && (y =? 187) && (z =? 191))%nat.

(** The leading white space that [parseInt] skips. *)
Fixpoint trimStart (s : string) : string :=
  match s with
  | String c s1 =>
      if isWhiteSpace c then trimStart s1
      else if (nat_of_ascii c <? 128)%nat then s
      else
        match s1 with
        | String c1 s2 =>
            if isWhiteSpace2 c c1 then trimStart s2
            else
              match s2 with
              | String c2 s3 =>
                  if isWhiteSpace3 c c1 c2 then trimStart s3 else s
              | EmptyString => s
              end
        | EmptyString => s
        end
  | EmptyString => s
  end.

(** The value of a character as a digit, in radix up to 36. *)
Definition digitValue (c : ascii) : option Z :=
  let n := Z.of_nat (nat_of_ascii c) in
  if (48 <=? n) && (n <=? 57) then Some (n - 48)
  else if (97 <=? n) && (n <=? 122) then Some (n - 87)
  else if (65 <=? n) && (n <=? 90) then Some (n - 55)
  else None.

(** The longest prefix of radix-[r] digits, read as an integer; [acc] is
    [None] until a first digit has been read. *)
Fixpoint digits (r : Z) (s : string) (acc : option Z) : option Z :=
  match s with
  | String c s' =>
      match digitValue c with
      | Some d =>
          if d <? r then digits r s' (Some (default 0 acc * r + d)) else acc
      | None => acc
      end
  | EmptyString => acc
  end.

Definition signed (negative : bool) (o : option Z) : number :=
  match o with
  | None => NaN
  | Some z => Num (if negative then - z else z)
  end.

Definition unsignedInt (s : string) : option Z :=
  match s with
  | String "0" (String "x" s') => digits 16 s' None
  | String "0" (String "X" s') => digits 16 s' None
  | _ => digits 10 s None
  end.

(** [parseInt(s)] without a radix argument. *)
Definition parseInt (s : string) : number :=
  match trimStart s with
  | String "-" s' => signed true (unsignedInt s')
  | String "+" s' => signed false (unsignedInt s')
  | s' => signed false (unsignedInt s')
  end.

(** [n.toString()] for an integer [n]: its decimal digits.  This is what
    JavaScript returns for the integers a number holds exactly, up to
    [MAX_SAFE_INTEGER] in absolute value; from 10^21 on JavaScript writes
    an exponent instead, which this definition does not follow. *)
Definition toString (n : Z) : string := pretty n.

(** [v || d] for [v : string | null]: [null] and the empty string are
    falsy. *)
Definition orElse (v : option string) (d : string) : string :=
  match v with
  | None => d
  | Some EmptyString => d
  | Some s => s
  end.

End JS.

(** ** Data model *)

Inductive Difficulty : Type := easy | medium | hard.

Module Character.
Record t : Type := mk {
  id : string;
  x : Q;
  y : Q;
  isGoofy : bool;
  isFound : bool;
  emoji : string
}.

(** [{ ...char, isFound: true }] *)
Definition markFound (c : t) : t :=
  mk (id c) (x c) (y c) (isGoofy c) true (emoji c).
End Character.

Record GameState : Type := mkGameState {
  score : Z;
  timeLeft : Z;
  gameStarted : bool;
  gameOver : bool;
  difficulty : Difficulty;
  level : Z
}.

Definition GAME_DURATION : Z := 60.

Record Config : Type := mkConfig {
  totalCharacters : Z;
  goofyCount : Z
}.

Definition DIFFICULTIES (d : Difficulty) : Config :=
  match d with
  | easy => mkConfig 20 3
  | medium => mkConfig 40 5
  | hard => mkConfig 60 7
  end.

Definition CHARACTER_EMOJIS : list string :=
  ["👤"; "🧑"; "👩"; "👨"; "🧓"; "👱"; "👴"; "👵"; "🧑‍🦲"; "👨‍🦱"].

Definition GOOFY_EMOJI : string := "🤪".

Definition highScoreKey : string := "findGoofyHighScore".

(** [{ ...prev, score: v }] and the like. *)
Definition setScore (v : Z) (g : GameState) : GameState :=
  mkGameState v (timeLeft g) (gameStarted g) (gameOver g) (difficulty g) (level g).

Definition setDifficulty (d : Difficulty) (g : GameState) : GameState :=
  mkGameState (score g) (timeLeft g) (gameStarted g) (gameOver g) d (level g).

(** The state of the mounted component together with the browser resources
    it uses. *)
Record World : Type := mkWorld {
  gameState : GameState;
  characters : list Character.t;
  scopeVisible : bool;
  highScore : JS.number;
  localStorage : gmap string string;
  timerRef : option nat;
  intervals : gset nat;
  nextInterval : nat;
  draws : nat
}.

(** [clearInterval(id)]: clearing [undefined] or a dead id does nothing. *)
Definition clearInterval (id : option nat) (live : gset nat) : gset nat :=
  match id with
  | Some t => live ∖ {[t]}
  | None => live
  end.

(** A [for (let i = 0; i < n; i++)] loop threading an accumulator. *)
Fixpoint forLoop {A : Type} (body : nat -> A -> A) (i n : nat) (acc : A) : A :=
  match n with
  | O => acc
  | S n' => forLoop body (S i) n' (body i acc)
  end.

(** The target characters of a list. *)
Definition targets (cs : list Character.t) : list Character.t :=
  List.filter Character.isGoofy cs.

(** [a[i]] for an integer [i]; [None] stands for [undefined]. *)
Definition index {A : Type} (a : list A) (i : Z) : option A :=
  if i <? 0 then None else a !! Z.to_nat i.

(** The lookup [localStorage.getItem(key) || '0'] followed by [parseInt]. *)
Definition readHighScore (store : gmap string string) : JS.number :=
  JS.parseInt (JS.orElse (store !! highScoreKey) "0").

Section Game.

(** The [n]-th value returned by [Math.random()].  The generator below
    multiplies and adds in exact rational arithmetic; the component does
    so in binary64, and the rounding of its products and sums is not
    modelled. *)
Variable random : nat -> Q.

(** *** Round generator *)

Definition pushGoofy (i : nat) (acc : list Character.t * nat)
  : list Character.t * nat :=
  let '(cs, n) := acc in
  (cs ++ [Character.mk ("goofy-" +:+ pretty i)
            (random n * 85 + 5)%Q
            (random (S n) * 75 + 15)%Q
            true false GOOFY_EMOJI],
   S (S n)).

Definition pushRegular (i : nat) (acc : list Character.t * nat)
  : list Character.t * nat :=
  let '(cs, n) := acc in
  (cs ++ [Character.mk ("char-" +:+ pretty i)
            (random n * 85 + 5)%Q
            (random (S n) * 75 + 15)%Q
            false false
            (default "" (index CHARACTER_EMOJIS
               (Qfloor (random (S (S n))
                        * inject_Z (Z.of_nat (length CHARACTER_EMOJIS))))))],
   S (S (S n))).

(** [generateCharacters(difficulty, level)], started after [n] draws;
    returns the new characters and the number of draws made. *)
Definition generateCharacters (d : Difficulty) (lvl : Z) (n : nat)
  : list Character.t * nat :=
  let config := DIFFICULTIES d in
  let total := Z.min (totalCharacters config + (lvl - 1) * 5) 80 in
  let goofys := Z.min (goofyCount config + (lvl - 1) / 2) 12 in
  let acc := forLoop pushGoofy 0 (Z.to_nat goofys) ([], n) in
  forLoop pushRegular 0 (Z.to_nat (total - goofys)) acc.

(** *** Event handlers *)

(** The body shared by [setInterval]'s callers: a fresh id is made live
    and stored in [timerRef.current]. *)
Definition startRound (w : World) : World :=
  let g := gameState w in
  let gen := generateCharacters (difficulty g) (level g) (draws w) in
  let t := nextInterval w in
  mkWorld
    (mkGameState (score g) GAME_DURATION true false (difficulty g) (level g))
    (fst gen)
    true
    (highScore w)
    (localStorage w)
    (Some t)
    ({[t]} ∪ intervals w)
    (S t)
    (snd gen).

(** [startGame()] *)
Definition startGame (w : World) : World := startRound w.

(** [nextLevel()]: the same statements as [startGame], without the toast. *)
Definition nextLevel (w : World) : World := startRound w.

(** The callback installed by [setInterval]. *)
Definition tick (w : World) : World :=
  let prev := gameState w in
  if timeLeft prev <=? 1 then
    mkWorld
      (mkGameState (score prev) 0 (gameStarted prev) true (difficulty prev) (level prev))
      (characters w) (scopeVisible w) (highScore w) (localStorage w)
      (timerRef w) (clearInterval (timerRef w) (intervals w))
      (nextInterval w) (draws w)
  else
    mkWorld
      (mkGameState (score prev) (timeLeft prev - 1) (gameStarted prev)
         (gameOver prev) (difficulty prev) (level prev))
      (characters w) (scopeVisible w) (highScore w) (localStorage w)
      (timerRef w) (intervals w) (nextInterval w) (draws w).

(** The function mapped over the characters by [handleCharacterClick];
    the game state is threaded through because the function queues a
    score update. *)
Definition clickOne (characterId : string) (char : Character.t)
    (prevState : GameState) : Character.t * GameState :=
  if String.eqb (Character.id char) characterId
     && negb (Character.isFound char) then
    if Character.isGoofy char then
      (Character.markFound char,
       setScore (score prevState + 100 * level prevState) prevState)
    else
      (char, setScore (Z.max 0 (score prevState - 25)) prevState)
  else (char, prevState).

Fixpoint mapClick (characterId : string) (cs : list Character.t)
    (g : GameState) : list Character.t * GameState :=
  match cs with
  | [] => ([], g)
  | char :: rest =>
      let r := clickOne characterId char g in
      let rs := mapClick characterId rest (snd r) in
      (fst r :: fst rs, snd rs)
  end.

(** [handleCharacterClick(characterId)] *)
Definition handleCharacterClick (characterId : string) (w : World) : World :=
  if negb (gameStarted (gameState w)) || gameOver (gameState w) then w
  else
    let r := mapClick characterId (characters w) (gameState w) in
    mkWorld (snd r) (fst r) (scopeVisible w) (highScore w) (localStorage w)
      (timerRef w) (intervals w) (nextInterval w) (draws w).

(** [resetGame()] *)
Definition resetGame (w : World) : World :=
  mkWorld
    (mkGameState 0 GAME_DURATION false false (difficulty (gameState w)) 1)
    []
    false
    (highScore w) (localStorage w)
    (timerRef w) (clearInterval (timerRef w) (intervals w))
    (nextInterval w) (draws w).

(** The [onChange] handler of the difficulty selector. *)
Definition selectDifficulty (d : Difficulty) (w : World) : World :=
  mkWorld (setDifficulty d (gameState w))
    (characters w) (scopeVisible w) (highScore w) (localStorage w)
    (timerRef w) (intervals w) (nextInterval w) (draws w).

(** *** Effects

    An effect is a closure of the render that scheduled it: it reads the
    rendered snapshot [snap], while its state updates and its accesses to
    [timerRef] and [localStorage] act on the current world [cur].

    The effects are run after every handler and before the next event.
    React skips an effect none of whose dependencies changed; on a world
    that the effects have already settled both bodies change nothing
    ([flush_settle]), so the worlds are the same. *)

Definition allGoofysFound (cs : list Character.t) : bool :=
  (0 <? length cs)%nat
  && forallb Character.isFound (List.filter Character.isGoofy cs).

(** Whether the level-completion effect fires on a rendered world. *)
Definition levelComplete (w : World) : bool :=
  negb (negb (gameStarted (gameState w)) || gameOver (gameState w))
  && allGoofysFound (characters w).

(** The effect under [// Check for level completion]. *)
Definition levelCompletionEffect (snap cur : World) : World :=
  if negb (gameStarted (gameState snap)) || gameOver (gameState snap) then cur
  else if allGoofysFound (characters snap) then
    let timeBonus := timeLeft (gameState snap) * 10 in
    let newScore := score (gameState snap) + timeBonus in
    let prev := gameState cur in
    let isRecord := JS.gtb newScore (highScore snap) in
    mkWorld
      (mkGameState newScore (timeLeft prev) (gameStarted prev) true
         (difficulty prev) (level prev + 1))
      (characters cur)
      (scopeVisible cur)
      (if isRecord then JS.Num newScore else highScore cur)
      (if isRecord
       then <[highScoreKey := JS.toString newScore]> (localStorage cur)
       else localStorage cur)
      (timerRef cur)
      (clearInterval (timerRef cur) (intervals cur))
      (nextInterval cur) (draws cur)
  else cur.

(** The effect under [// Game over effect]. *)
Definition gameOverEffect (snap cur : World) : World :=
  if gameOver (gameState snap) then
    mkWorld (gameState cur) (characters cur) false
      (highScore cur) (localStorage cur)
      (timerRef cur) (clearInterval (timerRef cur) (intervals cur))
      (nextInterval cur) (draws cur)
  else cur.

(** One commit: both effects of a render, in the order of declaration. *)
Definition flush (w : World) : World :=
  gameOverEffect w (levelCompletionEffect w w).

(** The state updates made by the effects cause one more render, whose
    effects change nothing further ([flush_settle] below). *)
Definition settle (w : World) : World := flush (flush w).

(** *** Events *)

Inductive Event : Type :=
| StartGame
| NextLevel
| ResetGame
| SelectDifficulty (d : Difficulty)
| CharacterClick (characterId : string)
| IntervalTick (t : nat).

Definition handle (w : World) (ev : Event) : World :=
  match ev with
  | StartGame => startGame w
  | NextLevel => nextLevel w
  | ResetGame => resetGame w
  | SelectDifficulty d => selectDifficulty d w
  | CharacterClick characterId => handleCharacterClick characterId w
  | IntervalTick _ => tick w
  end.

(** An event delivered to a page on which no update is waiting: the
    handler, its render and the effects it triggers, with nothing else
    happening in between.  An event that arrives while the update of a
    tick is still waiting is the subject of [pageClick] below. *)
Definition dispatch (w : World) (ev : Event) : World := settle (handle w ev).

(** Which events the rendered page can deliver: the buttons of the
    controls overlay as the JSX shows them, an enabled character button,
    and a live interval. *)
Definition enabled (w : World) (ev : Event) : bool :=
  let g := gameState w in
  match ev with
  | StartGame => negb (gameStarted g)
  | NextLevel => gameStarted g && gameOver g && (0 <? timeLeft g)
  | ResetGame => gameStarted g && gameOver g
  | SelectDifficulty _ => negb (gameStarted g)
  | CharacterClick characterId =>
      existsb (fun c => String.eqb (Character.id c) characterId
                        && negb (Character.isFound c)) (characters w)
  | IntervalTick t => bool_decide (t ∈ intervals w)
  end.

(** The component as mounted over a given [localStorage]. *)
Definition init (store : gmap string string) : World :=
  mkWorld
    (mkGameState 0 GAME_DURATION false false medium 1)
    []
    false
    (readHighScore store)
    store
    None ∅ 0%nat 0%nat.

(** Delivering a sequence of events, each of which must be enabled. *)
Fixpoint run (w : World) (evs : list Event) : option World :=
  match evs with
  | [] => Some w
  | ev :: evs' => if enabled w ev then run (dispatch w ev) evs' else None
  end.

Inductive reachable (store : gmap string string) : World -> Prop :=
| reachable_init : reachable store (init store)
| reachable_step w ev :
    reachable store w -> enabled w ev = true ->
    reachable store (dispatch w ev).

End Game.


(** ** Predicates on worlds *)

(** A round is running: started and not over. *)
Definition active (w : World) : bool :=
  gameStarted (gameState w) && negb (gameOver (gameState w)).

(** Every live interval is the one [timerRef.current] remembers. *)
Definition timersTracked (w : World) : Prop :=
  forall t, t ∈ intervals w -> timerRef w = Some t.

(** What holds of the world after every handler, before the effects run. *)
Record Consistent (w : World) : Prop := {
  cons_timers : timersTracked w;
  cons_live_active : intervals w <> ∅ -> active w = true;
  cons_over_started :
    gameOver (gameState w) = true -> gameStarted (gameState w) = true;
  cons_score : 0 <= score (gameState w);
  cons_level : 1 <= level (gameState w);
  cons_time : 0 <= timeLeft (gameState w) <= GAME_DURATION;
  cons_time_active : active w = true -> 1 <= timeLeft (gameState w);
  cons_chars : gameStarted (gameState w) = true -> characters w <> [];
  cons_ids : NoDup (Character.id <$> characters w)
}.

(** What the effects establish in addition. *)
Record Settled (w : World) : Prop := {
  settled_scope : gameOver (gameState w) = true -> scopeVisible w = false;
  settled_check : levelComplete w = false
}.

(** Clicking the characters with the given ids, one after the other. *)
Definition clicks (random : nat -> Q) (w : World) (ids : list string) : World :=
  fold_left
    (fun w' characterId => dispatch random w' (CharacterClick characterId))
    ids w.

(** ** What the page shows *)

(** The targets counted by the HUD line [Targets: N remaining]:
    [characters.filter(c => c.isGoofy && !c.isFound)]. *)
Definition remaining (cs : list Character.t) : list Character.t :=
  List.filter (fun c => Character.isGoofy c && negb (Character.isFound c)) cs.

(** [s.padStart(n, '0')] *)
Definition padStart0 (n : nat) (s : string) : string :=
  String.concat "" (replicate (n - String.length s) "0") +:+ s.

(** The clock of the HUD:
    [{Math.floor(timeLeft / 60)}:{(timeLeft % 60).toString().padStart(2, '0')}]. *)
Definition clockText (t : Z) : string :=
  JS.toString (t / 60) +:+ ":" +:+ padStart0 2 (JS.toString (Z.rem t 60)).

(** Reading a clock text of the form [m:ss] back into seconds. *)
Definition clockValue (s : string) : option Z :=
  match s with
  | String a (String ":" (String b (String c EmptyString))) =>
      match JS.digitValue a, JS.digitValue b, JS.digitValue c with
      | Some m, Some s1, Some s2 =>
          if (m <? 10) && (s1 <? 10) && (s2 <? 10)
          then Some (60 * m + 10 * s1 + s2) else None
      | _, _, _ => None
      end
  | _ => None
  end.


(** Further facts that hold of every world reached by events that are
    each delivered with nothing waiting. *)
Record Coherent (w : World) : Prop := {
  coh_scope : scopeVisible w = active w;
  coh_timer :
    active w = true ->
    exists t, timerRef w = Some t /\ intervals w = {[t]};
  coh_won :
    gameOver (gameState w) = true -> 0 < timeLeft (gameState w) ->
    allGoofysFound (characters w) = true /\ 2 <= level (gameState w);
  coh_lost :
    gameOver (gameState w) = true -> timeLeft (gameState w) = 0 ->
    allGoofysFound (characters w) = false;
  coh_found :
    Forall (fun c => Character.isFound c = true -> Character.isGoofy c = true)
      (characters w);
  coh_sync : readHighScore (localStorage w) = highScore w;
  coh_idle :
    gameStarted (gameState w) = false ->
    characters w = [] /\ score (gameState w) = 0
    /\ level (gameState w) = 1 /\ timeLeft (gameState w) = GAME_DURATION;
  coh_record :
    forall v, gameOver (gameState w) = true -> 0 < timeLeft (gameState w) ->
    highScore w = JS.Num v -> score (gameState w) <= v
}.

(** ** Updates that wait for a render

    A state update made from the interval callback is not rendered at
    once: React queues it and renders it later, from a task of its
    scheduler.  A click is rendered at once, and the updates that are
    waiting are left out of that render.  The click handler and the
    effects of that render are closures over what was rendered, not over
    what is waiting.

    A [Page] is the rendered world together with the updates of
    [gameState] that wait, in the order they were queued, and the state
    they will be applied to. *)

Inductive Update : Type :=
| Ticked (result : GameState)
    (** the interval callback's updater, already run when it was queued:
        React runs an updater at once when nothing else is waiting, and
        keeps its result *)
| Tick
    (** the interval callback's updater, still to run *)
| Won (newScore : Z).
    (** the updater of the level-completion effect *)

Record Page : Type := mkPage {
  shown : World;                    (** what the last render produced *)
  baseState : GameState;            (** the [gameState] the waiting updates start from *)
  pending : list Update;            (** waiting updates of [gameState] *)
  pendingHighScore : option Z;      (** waiting [setHighScore] *)
  pendingScope : option bool        (** waiting [setScopeVisible] *)
}.

(** A page on which nothing waits. *)
Definition quiet (w : World) : Page := mkPage w (gameState w) [] None None.

Definition idle (p : Page) : bool :=
  match pending p, pendingHighScore p, pendingScope p with
  | [], None, None => true
  | _, _, _ => false
  end.

(** The state returned by the interval callback's updater. *)
Definition tickState (prev : GameState) : GameState :=
  if timeLeft prev <=? 1 then
    mkGameState (score prev) 0 (gameStarted prev) true (difficulty prev)
      (level prev)
  else
    mkGameState (score prev) (timeLeft prev - 1) (gameStarted prev)
      (gameOver prev) (difficulty prev) (level prev).

(** The [clearInterval] that updater makes on its way. *)
Definition tickClears (prev : GameState) (ref : option nat)
    (live : gset nat) : gset nat :=
  if timeLeft prev <=? 1 then clearInterval ref live else live.

(** Running one waiting update on the state computed so far. *)
Definition applyUpdate (ref : option nat) (acc : GameState * gset nat)
    (u : Update) : GameState * gset nat :=
  let prev := fst acc in
  let live := snd acc in
  match u with
  | Ticked result => (result, live)
  | Tick => (tickState prev, tickClears prev ref live)
  | Won newScore =>
      (mkGameState newScore (timeLeft prev) (gameStarted prev) true
         (difficulty prev) (level prev + 1),
       live)
  end.

(** The two effects of a commit.  They read the rendered world; their
    accesses to [timerRef] and [localStorage] happen at once, their state
    updates wait for the next render.  [setScopeVisible(false)] on a
    scope that is already hidden queues nothing. *)
Definition pageEffects (p : Page) : Page :=
  let s := shown p in
  let g := gameState s in
  let wins := levelComplete s in
  let newScore := score g + timeLeft g * 10 in
  let isRecord := wins && JS.gtb newScore (highScore s) in
  let over := gameOver g in
  mkPage
    (mkWorld g (characters s) (scopeVisible s) (highScore s)
       (if isRecord
        then <[highScoreKey := JS.toString newScore]> (localStorage s)
        else localStorage s)
       (timerRef s)
       (if wins || over
        then clearInterval (timerRef s) (intervals s) else intervals s)
       (nextInterval s) (draws s))
    (baseState p)
    (if wins then pending p ++ [Won newScore] else pending p)
    (if isRecord then Some newScore else pendingHighScore p)
    (if over && scopeVisible s then Some false else pendingScope p).

(** The interval callback fires: [setGameState(prev => ...)].  Its update
    waits for a render; when nothing else waits the updater is run at
    once, on the rendered state. *)
Definition pageFire (p : Page) : Page :=
  let s := shown p in
  if idle p then
    mkPage
      (mkWorld (gameState s) (characters s) (scopeVisible s) (highScore s)
         (localStorage s) (timerRef s)
         (tickClears (gameState s) (timerRef s) (intervals s))
         (nextInterval s) (draws s))
      (baseState p) [Ticked (tickState (gameState s))] None None
  else
    mkPage s (baseState p) (pending p ++ [Tick]) (pendingHighScore p)
      (pendingScope p).

(** A click on a character: the guard of [handleCharacterClick] reads the
    rendered state; the click is rendered at once, with the waiting
    updates left out, and the effects of that render run.  The score
    update made inside the [setCharacters] updater is kept for later
    renders only when no update of [gameState] is waiting. *)
Definition pageClick (characterId : string) (p : Page) : Page :=
  let s := shown p in
  if negb (gameStarted (gameState s)) || gameOver (gameState s) then p
  else
    let r := mapClick characterId (characters s) (baseState p) in
    pageEffects
      (mkPage
         (mkWorld (snd r) (fst r) (scopeVisible s) (highScore s)
            (localStorage s) (timerRef s) (intervals s) (nextInterval s)
            (draws s))
         (match pending p with [] => snd r | _ :: _ => baseState p end)
         (pending p) (pendingHighScore p) (pendingScope p)).

(** The render of the waiting updates, from a task of the scheduler,
    followed by its effects.  (React runs the effects of such a render
    from one more task; no event is taken to arrive in between.) *)
Definition pageRender (p : Page) : Page :=
  if idle p then p
  else
    let s := shown p in
    let r := fold_left (applyUpdate (timerRef s)) (pending p)
               (baseState p, intervals s) in
    pageEffects
      (mkPage
         (mkWorld (fst r) (characters s)
            (default (scopeVisible s) (pendingScope p))
            (match pendingHighScore p with
             | Some v => JS.Num v
             | None => highScore s
             end)
            (localStorage s) (timerRef s) (snd r) (nextInterval s)
            (draws s))
         (fst r) [] None None).

(** Rendering until nothing waits: the updates an effect queues take one
    more render. *)
Definition pageSettle (p : Page) : Page := pageRender (pageRender p).

(** Clicking the characters with the given ids, one after the other, with
    no render of waiting updates in between. *)
Definition pageClicks (p : Page) (ids : list string) : Page :=
  fold_left (fun p' characterId => pageClick characterId p') ids p.

(** ** Concrete data used by the examples *)

(** A fixed random source: 0, 1/10, ..., 9/10, 0, ... *)
Definition demoRandom (n : nat) : Q := Z.of_nat (n mod 10) # 10.

(** The component mounted over an empty store, easy tier selected and the
    first round started. *)
Definition demoStarted : World :=
  dispatch demoRandom
    (dispatch demoRandom (init ∅) (SelectDifficulty easy)) StartGame.

(** Easy tier, level 1: the three targets are found when 45 seconds are
    left. *)
Definition winEvents : list Event :=
  [SelectDifficulty easy; StartGame]
  ++ replicate 15 (IntervalTick 0)
  ++ [CharacterClick "goofy-0"; CharacterClick "goofy-1"; CharacterClick "goofy-2"].

(** The round of [winEvents] before the click on the last target. *)
Definition lastTarget : World :=
  default (init ∅) (run demoRandom (init ∅) (removelast winEvents)).

(** The round of [winEvents] once the last target is found. *)
Definition wonRound : World :=
  dispatch demoRandom lastTarget (CharacterClick "goofy-2").

(** Easy tier, level 1: one target is found, then the time runs out. *)
Definition lossEvents : list Event :=
  [SelectDifficulty easy; StartGame; CharacterClick "goofy-0"]
  ++ replicate 60 (IntervalTick 0).

(** The round of [lossEvents] one second before the end. *)
Definition lastSecond : World :=
  default (init ∅)
    (run demoRandom (init ∅)
       ([SelectDifficulty easy; StartGame; CharacterClick "goofy-0"]
        ++ replicate 59 (IntervalTick 0))).

(** The world after [lossEvents]. *)
Definition timedOut : World := dispatch demoRandom lastSecond (IntervalTick 0).

(** Easy tier, level 1: two targets are found when 46 seconds are left. *)
Definition twoFoundAt46 : World :=
  default (init ∅)
    (run demoRandom (init ∅)
       ([SelectDifficulty easy; StartGame]
        ++ replicate 14 (IntervalTick 0)
        ++ [CharacterClick "goofy-0"; CharacterClick "goofy-1"])).

(** Easy tier, level 1: two targets are found, one second is left. *)
Definition twoFoundAt1 : World :=
  default (init ∅)
    (run demoRandom (init ∅)
       ([SelectDifficulty easy; StartGame;
         CharacterClick "goofy-0"; CharacterClick "goofy-1"]
        ++ replicate 59 (IntervalTick 0))).

(** A tick fires and, before its update is rendered, the character is
    clicked; then everything that waits is rendered. *)
Definition clickBehindTick (w : World) (characterId : string) : Page :=
  pageSettle (pageClick characterId (pageFire (quiet w))).

(** A store whose high-score entry is not a number. *)
Definition malformedStore : gmap string string := {[highScoreKey := "abc"]}.

(** An active round that has no characters at all. *)
Definition emptyActive : World :=
  mkWorld (mkGameState 40 30 true false hard 2) [] true (JS.Num 0) ∅
    (Some 0%nat) {[0%nat]} 1%nat 0%nat.

#[global] Arguments allGoofysFound : simpl never.

(** Reducing the projections of an explicit world. *)
Ltac world_simpl :=
  cbn [gameState characters scopeVisible highScore localStorage timerRef
       intervals nextInterval draws
       score timeLeft gameStarted gameOver difficulty level
       fst snd negb andb orb] in *.

(** Reducing the fields of an explicit page as well. *)
Ltac page_simpl :=
  cbn [shown baseState pending pendingHighScore pendingScope] in *;
  world_simpl.

(** * Properties *)

(** ** The round generator *)

Section Generator.

Variable random : nat -> Q.

Lemma targets_app cs1 cs2 : targets (cs1 ++ cs2) = targets cs1 ++ targets cs2.
Proof. apply List.filter_app. Qed.

Lemma pushGoofy_spec i cs k :
  exists c, pushGoofy random i (cs, k) = (cs ++ [c], S (S k))
            /\ Character.isGoofy c = true /\ Character.isFound c = false
            /\ Character.id c = "goofy-" +:+ pretty i.
Proof. eexists; repeat split. Qed.

Lemma pushRegular_spec i cs k :
  exists c, pushRegular random i (cs, k) = (cs ++ [c], S (S (S k)))
            /\ Character.isGoofy c = false /\ Character.isFound c = false
            /\ Character.id c = "char-" +:+ pretty i.
Proof. eexists; repeat split. Qed.

(** What [n] further iterations of the first loop add. *)
Lemma goofy_loop n : forall i cs k,
  let r := forLoop (pushGoofy random) i n (cs, k) in
  length (fst r) = (length cs + n)%nat
  /\ length (targets (fst r)) = (length (targets cs) + n)%nat
  /\ (Forall (fun c => Character.isFound c = false) cs ->
      Forall (fun c => Character.isFound c = false) (fst r)).
Proof.
  induction n as [|n IH]; intros i cs k; cbn [forLoop].
  - cbn. repeat split; auto with arith.
  - destruct (pushGoofy_spec i cs k) as (c & -> & Hg & Hf & _).
    destruct (IH (S i) (cs ++ [c]) (S (S k))) as (Hl & Ht & Hu).
    cbv zeta in Hl, Ht, Hu |- *. rewrite Hl, Ht, targets_app, !length_app.
    unfold targets at 2; cbn. rewrite Hg; cbn.
    repeat split; try lia.
    intros Hcs. apply Hu, Forall_app; split; auto.
Qed.

(** What [n] further iterations of the second loop add. *)
Lemma regular_loop n : forall i cs k,
  let r := forLoop (pushRegular random) i n (cs, k) in
  length (fst r) = (length cs + n)%nat
  /\ length (targets (fst r)) = length (targets cs)
  /\ (Forall (fun c => Character.isFound c = false) cs ->
      Forall (fun c => Character.isFound c = false) (fst r)).
Proof.
  induction n as [|n IH]; intros i cs k; cbn [forLoop].
  - cbn. repeat split; auto with arith.
  - destruct (pushRegular_spec i cs k) as (c & -> & Hg & Hf & _).
    destruct (IH (S i) (cs ++ [c]) (S (S (S k)))) as (Hl & Ht & Hu).
    cbv zeta in Hl, Ht, Hu |- *. rewrite Hl, Ht, targets_app, !length_app.
    unfold targets at 2; cbn. rewrite Hg; cbn.
    repeat split; try lia.
    intros Hcs. apply Hu, Forall_app; split; auto.
Qed.

Lemma generate_counts d lvl n :
  let cs := fst (generateCharacters random d lvl n) in
  let total := Z.min (totalCharacters (DIFFICULTIES d) + (lvl - 1) * 5) 80 in
  let goofys := Z.min (goofyCount (DIFFICULTIES d) + (lvl - 1) / 2) 12 in
  length cs = (Z.to_nat goofys + Z.to_nat (total - goofys))%nat
  /\ length (targets cs) = Z.to_nat goofys
  /\ Forall (fun c => Character.isFound c = false) cs.
Proof.
  intros cs total goofys. subst cs. unfold generateCharacters.
  fold total goofys.
  destruct (goofy_loop (Z.to_nat goofys) 0 [] n) as (Hl & Ht & Hu).
  simpl in Hl, Ht, Hu.
  destruct (forLoop (pushGoofy random) 0 (Z.to_nat goofys) ([], n))
    as [cs k] eqn:E.
  destruct (regular_loop (Z.to_nat (total - goofys)) 0 cs k) as (Hl' & Ht' & Hu').
  simpl in *. rewrite Hl', Ht', Hl, Ht. repeat split; auto.
Qed.

(** Bounds on the two counts for levels from 1. *)
Lemma counts_bounds d lvl :
  1 <= lvl ->
  let total := Z.min (totalCharacters (DIFFICULTIES d) + (lvl - 1) * 5) 80 in
  let goofys := Z.min (goofyCount (DIFFICULTIES d) + (lvl - 1) / 2) 12 in
  3 <= goofys <= 12 /\ 20 <= total <= 80 /\ goofys <= total.
Proof.
  intros Hl total goofys.
  assert (0 <= (lvl - 1) / 2) by (apply Z.div_pos; lia).
  subst total goofys. destruct d; simpl; lia.
Qed.

(** The ids given by the two loops. *)
Lemma goofy_loop_ids n : forall i cs k,
  Character.id <$> fst (forLoop (pushGoofy random) i n (cs, k))
  = (Character.id <$> cs) ++ ((fun j => "goofy-" +:+ pretty j) <$> seq i n).
Proof.
  induction n as [|n IH]; intros i cs k; cbn [forLoop seq].
  - cbn. rewrite app_nil_r. reflexivity.
  - destruct (pushGoofy_spec i cs k) as (c & -> & _ & _ & Hid).
    rewrite IH, fmap_app, <- app_assoc. cbn. rewrite Hid. reflexivity.
Qed.

Lemma regular_loop_ids n : forall i cs k,
  Character.id <$> fst (forLoop (pushRegular random) i n (cs, k))
  = (Character.id <$> cs) ++ ((fun j => "char-" +:+ pretty j) <$> seq i n).
Proof.
  induction n as [|n IH]; intros i cs k; cbn [forLoop seq].
  - cbn. rewrite app_nil_r. reflexivity.
  - destruct (pushRegular_spec i cs k) as (c & -> & _ & _ & Hid).
    rewrite IH, fmap_app, <- app_assoc. cbn. rewrite Hid. reflexivity.
Qed.

(** The generated characters carry pairwise different ids. *)
Lemma generate_ids_NoDup d lvl n :
  NoDup (Character.id <$> fst (generateCharacters random d lvl n)).
Proof.
  unfold generateCharacters. cbv zeta.
  set (g := Z.to_nat (Z.min (goofyCount (DIFFICULTIES d) + (lvl - 1) / 2) 12)).
  set (r := Z.to_nat _).
  pose proof (goofy_loop_ids g 0 [] n) as Hg.
  destruct (forLoop (pushGoofy random) 0 g ([], n)) as [cs k].
  rewrite regular_loop_ids. cbn [fst] in Hg. rewrite Hg. cbn [fmap list_fmap app].
  apply NoDup_app. split; [|split].
  - apply NoDup_fmap_2; [|apply NoDup_seq].
    intros j1 j2 H. apply (inj (String.app "goofy-")) in H.
    apply (inj pretty) in H. exact H.
  - intros x H1 H2.
    apply list_elem_of_fmap in H1 as (j1 & -> & _).
    apply list_elem_of_fmap in H2 as (j2 & H2 & _).
    cbn in H2. discriminate.
  - apply NoDup_fmap_2; [|apply NoDup_seq].
    intros j1 j2 H. apply (inj (String.app "char-")) in H.
    apply (inj pretty) in H. exact H.
Qed.

(** C8: for every difficulty tier and every level from 1, the generator
    returns exactly [min(base + 5*(level-1), 80)] characters, of which
    exactly [min(baseTargets + floor((level-1)/2), 12)] are targets; so at
    most 12 targets, at most 80 characters, and no more targets than
    characters. *)
Theorem generateCharacters_counts d lvl n :
  1 <= lvl ->
  let cs := fst (generateCharacters random d lvl n) in
  let total := Z.min (totalCharacters (DIFFICULTIES d) + 5 * (lvl - 1)) 80 in
  let goofys := Z.min (goofyCount (DIFFICULTIES d) + (lvl - 1) / 2) 12 in
  Z.of_nat (length cs) = total
  /\ Z.of_nat (length (List.filter Character.isGoofy cs)) = goofys
  /\ goofys <= 12 /\ total <= 80
  /\ (length (List.filter Character.isGoofy cs) <= length cs)%nat.
Proof.
  intros Hl cs total goofys.
  destruct (generate_counts d lvl n) as (Hlen & Htg & _).
  destruct (counts_bounds d lvl Hl) as (Hg & Ht & Hgt).
  fold cs in Hlen, Htg. unfold targets in Htg.
  replace ((lvl - 1) * 5) with (5 * (lvl - 1)) in * by lia.
  fold total goofys in Hlen, Htg, Hg, Ht, Hgt.
  rewrite Hlen, Htg. repeat split; lia.
Qed.

End Generator.

(** Witness of [generateCharacters_counts]: hard tier, level 4. *)
Lemma generateCharacters_counts_witness :
  1 <= 4 /\
  Z.of_nat (length (fst (generateCharacters demoRandom hard 4 0))) = 75
  /\ Z.of_nat (length (List.filter Character.isGoofy
                         (fst (generateCharacters demoRandom hard 4 0)))) = 8.
Proof.
  split; [lia|].
  destruct (generateCharacters_counts demoRandom hard 4 0 ltac:(lia))
    as (H1 & H2 & _).
  split; [exact H1 | exact H2].
Defined.

(** ** Intervals *)

Lemma clearInterval_idem o (live : gset nat) :
  clearInterval o (clearInterval o live) = clearInterval o live.
Proof.
  destruct o as [t|]; simpl; [|reflexivity].
  apply set_eq. intros u. rewrite !elem_of_difference. tauto.
Qed.

Lemma clearInterval_tracked o (live : gset nat) :
  (forall t, t ∈ live -> o = Some t) -> clearInterval o live = ∅.
Proof.
  intros H. apply set_eq. intros u. rewrite elem_of_empty.
  split; [|tauto]. destruct o as [t|]; simpl.
  - rewrite elem_of_difference, elem_of_singleton. intros [Hu Hne].
    apply H in Hu. congruence.
  - intros Hu. apply H in Hu. discriminate.
Qed.

Lemma empty_tracked (o : option nat) t : t ∈ (∅ : gset nat) -> o = Some t.
Proof. intros H. apply elem_of_empty in H as []. Qed.

Lemma clearInterval_subseteq o (live : gset nat) : clearInterval o live ⊆ live.
Proof.
  destruct o as [t|]; simpl; [|reflexivity].
  intros u. rewrite elem_of_difference. tauto.
Qed.


(** ** The effects *)

(** One commit on a rendered world whose level-completion check fires: the
    game-over effect of the same render still sees a running round. *)
Lemma flush_won w :
  levelComplete w = true ->
  let g := gameState w in
  let newScore := score g + timeLeft g * 10 in
  flush w =
  mkWorld
    (mkGameState newScore (timeLeft g) (gameStarted g) true (difficulty g)
       (level g + 1))
    (characters w) (scopeVisible w)
    (if JS.gtb newScore (highScore w) then JS.Num newScore else highScore w)
    (if JS.gtb newScore (highScore w)
     then <[highScoreKey := JS.toString newScore]> (localStorage w)
     else localStorage w)
    (timerRef w) (clearInterval (timerRef w) (intervals w))
    (nextInterval w) (draws w).
Proof.
  destruct w as [[sc tl st ov df lv] cs sv hs ls tr iv ni dr].
  unfold levelComplete. cbn [gameState gameStarted gameOver characters].
  intros H. apply andb_true_iff in H as [H1 H2].
  destruct st, ov; try discriminate H1.
  unfold flush, levelCompletionEffect, gameOverEffect.
  cbn [gameState gameStarted gameOver characters negb orb].
  rewrite H2. reflexivity.
Qed.

Lemma flush_over w :
  gameOver (gameState w) = true ->
  flush w =
  mkWorld (gameState w) (characters w) false (highScore w) (localStorage w)
    (timerRef w) (clearInterval (timerRef w) (intervals w))
    (nextInterval w) (draws w).
Proof.
  destruct w as [[sc tl st ov df lv] cs sv hs ls tr iv ni dr].
  cbn [gameState gameOver]. intros ->.
  unfold flush, levelCompletionEffect, gameOverEffect.
  cbn [gameState gameStarted gameOver]. rewrite orb_true_r. reflexivity.
Qed.

Lemma flush_quiet w :
  levelComplete w = false -> gameOver (gameState w) = false -> flush w = w.
Proof.
  destruct w as [[sc tl st ov df lv] cs sv hs ls tr iv ni dr].
  unfold levelComplete. cbn [gameState gameStarted gameOver characters].
  intros H ->.
  unfold flush, levelCompletionEffect, gameOverEffect.
  cbn [gameState gameStarted gameOver characters].
  destruct st; cbn [negb orb andb] in H |- *; [|reflexivity].
  rewrite H. reflexivity.
Qed.

(** The world after a completed level: the outcome of the effects on a
    rendered world whose level-completion check fires. *)
Lemma settle_won w :
  levelComplete w = true ->
  let g := gameState w in
  let newScore := score g + timeLeft g * 10 in
  settle w =
  mkWorld
    (mkGameState newScore (timeLeft g) (gameStarted g) true (difficulty g)
       (level g + 1))
    (characters w) false
    (if JS.gtb newScore (highScore w) then JS.Num newScore else highScore w)
    (if JS.gtb newScore (highScore w)
     then <[highScoreKey := JS.toString newScore]> (localStorage w)
     else localStorage w)
    (timerRef w) (clearInterval (timerRef w) (intervals w))
    (nextInterval w) (draws w).
Proof.
  intros H g newScore. unfold settle. rewrite (flush_won w H).
  rewrite flush_over by reflexivity.
  cbn [gameState characters highScore localStorage timerRef intervals
       nextInterval draws].
  rewrite clearInterval_idem. reflexivity.
Qed.

Lemma settle_over w :
  gameOver (gameState w) = true ->
  settle w =
  mkWorld (gameState w) (characters w) false (highScore w) (localStorage w)
    (timerRef w) (clearInterval (timerRef w) (intervals w))
    (nextInterval w) (draws w).
Proof.
  intros H. unfold settle. rewrite (flush_over w H).
  rewrite flush_over by exact H.
  cbn [gameState characters highScore localStorage timerRef intervals
       nextInterval draws].
  rewrite clearInterval_idem. reflexivity.
Qed.

Lemma settle_quiet w :
  levelComplete w = false -> gameOver (gameState w) = false -> settle w = w.
Proof.
  intros H1 H2. unfold settle. rewrite !(flush_quiet w H1 H2). reflexivity.
Qed.

(** A further render after [settle] changes nothing: two commits are all
    the effects need. *)
Lemma flush_settle w : flush (settle w) = settle w.
Proof.
  destruct (levelComplete w) eqn:Hc.
  - rewrite (settle_won w Hc). cbv zeta. rewrite flush_over by reflexivity.
    cbn [gameState characters highScore localStorage timerRef intervals
         nextInterval draws].
    rewrite clearInterval_idem. reflexivity.
  - destruct (gameOver (gameState w)) eqn:Ho.
    + rewrite (settle_over w Ho). rewrite flush_over by exact Ho.
      cbn [gameState characters highScore localStorage timerRef intervals
           nextInterval draws].
      rewrite clearInterval_idem. reflexivity.
    + rewrite (settle_quiet w Hc Ho). apply flush_quiet; assumption.
Qed.

(** ** Clicks *)

Lemma clickOne_frame cid c g :
  let g' := snd (clickOne cid c g) in
  timeLeft g' = timeLeft g /\ gameStarted g' = gameStarted g
  /\ gameOver g' = gameOver g /\ difficulty g' = difficulty g
  /\ level g' = level g
  /\ (0 <= score g -> 0 <= level g -> 0 <= score g').
Proof.
  unfold clickOne.
  destruct (_ && _), (Character.isGoofy c); simpl; repeat split; lia.
Qed.

Lemma mapClick_frame cid cs : forall g,
  let r := mapClick cid cs g in
  length (fst r) = length cs
  /\ timeLeft (snd r) = timeLeft g /\ gameStarted (snd r) = gameStarted g
  /\ gameOver (snd r) = gameOver g /\ difficulty (snd r) = difficulty g
  /\ level (snd r) = level g
  /\ (0 <= score g -> 0 <= level g -> 0 <= score (snd r)).
Proof.
  induction cs as [|c cs IH]; intros g; cbn [mapClick]; cbv zeta.
  - simpl. repeat split; auto.
  - destruct (clickOne_frame cid c g) as (Ht & Hs & Ho & Hd & Hl & Hsc).
    destruct (IH (snd (clickOne cid c g))) as (Hlen & Ht' & Hs' & Ho' & Hd' & Hl' & Hsc').
    cbv zeta in *. cbn [fst snd length].
    rewrite Hlen, Ht', Hs', Ho', Hd', Hl'. repeat split; auto.
    intros H0 H1. apply Hsc'; [auto | lia].
Qed.

(** A click changes no id. *)
Lemma mapClick_ids cid cs : forall g,
  Character.id <$> fst (mapClick cid cs g) = Character.id <$> cs.
Proof.
  induction cs as [|c cs IH]; intros g; cbn [mapClick]; cbv zeta; [reflexivity|].
  cbn [fst fmap list_fmap]. fold (list_fmap _ _ Character.id).
  change (list_fmap _ _ Character.id) with (fmap (M:=list) Character.id).
  rewrite IH. f_equal. unfold clickOne.
  destruct (_ && _), (Character.isGoofy c); reflexivity.
Qed.

(** Characters with another id are left alone. *)
Lemma mapClick_absent cid cs g :
  Forall (fun c => Character.id c <> cid) cs -> mapClick cid cs g = (cs, g).
Proof.
  induction 1 as [|c cs Hc _ IH]; [reflexivity|].
  cbn [mapClick]. unfold clickOne at 1 2 3.
  apply String.eqb_neq in Hc. rewrite Hc. simpl. rewrite IH. reflexivity.
Qed.

Lemma mapClick_app cid cs1 cs2 : forall g,
  mapClick cid (cs1 ++ cs2) g =
  (fst (mapClick cid cs1 g) ++ fst (mapClick cid cs2 (snd (mapClick cid cs1 g))),
   snd (mapClick cid cs2 (snd (mapClick cid cs1 g)))).
Proof.
  induction cs1 as [|c cs1 IH]; intros g.
  - simpl. destruct (mapClick cid cs2 g); reflexivity.
  - cbn [mapClick app]. rewrite IH. reflexivity.
Qed.

(** The effect of a click when exactly one character carries the id. *)
Lemma mapClick_unique cid cs1 c cs2 g :
  Forall (fun c' => Character.id c' <> cid) cs1 ->
  Forall (fun c' => Character.id c' <> cid) cs2 ->
  Character.id c = cid ->
  mapClick cid (cs1 ++ c :: cs2) g =
  (cs1 ++ fst (clickOne cid c g) :: cs2, snd (clickOne cid c g)).
Proof.
  intros H1 H2 Hc. rewrite mapClick_app, (mapClick_absent _ _ _ H1).
  cbn [mapClick fst snd]. rewrite (mapClick_absent _ _ _ H2). reflexivity.
Qed.

(** ** Invariants of the state machine *)

Section Machine.

Variable random : nat -> Q.

(** A freshly generated round has an unfound target, so its completion
    check does not fire and the effects leave it as generated. *)
Lemma startRound_incomplete w :
  1 <= level (gameState w) -> levelComplete (startRound random w) = false.
Proof.
  intros Hlv.
  destruct (generate_counts random (difficulty (gameState w))
              (level (gameState w)) (draws w)) as (_ & Hlen & Hnf).
  destruct (counts_bounds (difficulty (gameState w))
              (level (gameState w)) Hlv) as (Hg & _).
  cbv zeta in *. unfold levelComplete, allGoofysFound. simpl.
  set (cs := fst (generateCharacters random (difficulty (gameState w))
                    (level (gameState w)) (draws w))) in *.
  fold (targets cs).
  destruct (targets cs) as [|c tg] eqn:Etg; [simpl in Hlen; lia|].
  assert (In c cs) as Hin.
  { apply (proj1 (List.filter_In Character.isGoofy c cs)).
    fold (targets cs). rewrite Etg. left. reflexivity. }
  rewrite List.Forall_forall in Hnf. apply Hnf in Hin.
  simpl. rewrite Hin. apply andb_false_r.
Qed.

Lemma settle_startRound w :
  1 <= level (gameState w) -> settle (startRound random w) = startRound random w.
Proof.
  intros Hlv. apply settle_quiet; [apply startRound_incomplete, Hlv|reflexivity].
Qed.

Lemma handle_consistent w ev :
  Consistent w -> enabled w ev = true -> Consistent (handle random w ev).
Proof.
  intros [Htr Hla Hos Hsc Hlv Htm Hta Hch Hids] Hen.
  assert (Hidle : active w = false -> intervals w = ∅).
  { intros Ha. destruct (decide (intervals w = ∅)) as [|Hne]; [assumption|].
    apply Hla in Hne. congruence. }
  assert (Hgen : fst (generateCharacters random (difficulty (gameState w))
                        (level (gameState w)) (draws w)) <> []).
  { intros Hnil.
    destruct (generate_counts random (difficulty (gameState w))
                (level (gameState w)) (draws w)) as (Hlen & _).
    destruct (counts_bounds (difficulty (gameState w))
                (level (gameState w)) Hlv) as (Hg & _).
    cbv zeta in *. rewrite Hnil in Hlen. cbn [length] in Hlen. lia. }
  unfold active, timersTracked, GAME_DURATION in *.
  destruct ev as [| | |d|cid|t]; cbn [enabled handle] in Hen |- *.
  - (* startGame *)
    unfold startGame, startRound.
    rewrite Hidle by (destruct (gameStarted (gameState w)); [discriminate|reflexivity]).
    split; unfold active, timersTracked, GAME_DURATION; world_simpl;
      try tauto; try lia; try reflexivity; try apply generate_ids_NoDup.
    intros t. rewrite elem_of_union, elem_of_singleton, elem_of_empty.
    intros [->|[]]. reflexivity.
  - (* nextLevel *)
    unfold nextLevel, startRound.
    rewrite Hidle
      by (destruct (gameStarted (gameState w)), (gameOver (gameState w));
          cbn in *; congruence).
    split; unfold active, timersTracked, GAME_DURATION; world_simpl;
      try tauto; try lia; try reflexivity; try apply generate_ids_NoDup.
    intros t. rewrite elem_of_union, elem_of_singleton, elem_of_empty.
    intros [->|[]]. reflexivity.
  - (* resetGame *)
    unfold resetGame. rewrite (clearInterval_tracked _ _ Htr).
    split; unfold active, timersTracked, GAME_DURATION; world_simpl;
      try tauto; try lia; try discriminate.
    apply NoDup_nil_2.
  - (* selectDifficulty *)
    unfold selectDifficulty, setDifficulty.
    split; unfold active, timersTracked, GAME_DURATION; world_simpl; auto.
  - (* handleCharacterClick *)
    unfold handleCharacterClick.
    destruct (negb (gameStarted (gameState w)) || gameOver (gameState w)) eqn:E.
    { split; assumption. }
    destruct (mapClick_frame cid (characters w) (gameState w))
      as (Hlen & Ht & Hs & Ho & Hd & Hl & Hscore).
    cbv zeta in *.
    split; unfold active, timersTracked, GAME_DURATION; world_simpl;
      rewrite ?Ht, ?Hs, ?Ho, ?Hl; auto.
    + apply Hscore; lia.
    + intros Hst Hnil. rewrite Hnil in Hlen. cbn [length] in Hlen.
      apply Hch in Hst. destruct (characters w); [congruence|discriminate].
    + rewrite mapClick_ids. exact Hids.
  - (* tick *)
    apply bool_decide_eq_true in Hen.
    assert (Hact : gameStarted (gameState w) && negb (gameOver (gameState w)) = true).
    { apply Hla. intros Hemp. rewrite Hemp in Hen. apply elem_of_empty in Hen as []. }
    specialize (Hta Hact). apply andb_true_iff in Hact as [Hst Hov].
    unfold tick. destruct (timeLeft (gameState w) <=? 1) eqn:E.
    + rewrite (clearInterval_tracked _ _ Htr).
      split; unfold active, timersTracked, GAME_DURATION; world_simpl;
        rewrite ?andb_false_r; auto; try lia; try tauto; try discriminate.
    + apply Z.leb_gt in E.
      split; unfold active, timersTracked, GAME_DURATION; world_simpl;
        auto; try lia.
Qed.

Lemma settle_consistent w :
  Consistent w -> Consistent (settle w) /\ Settled (settle w).
Proof.
  intros [Htr Hla Hos Hsc Hlv Htm Hta Hch Hids].
  unfold active, timersTracked, GAME_DURATION in *.
  destruct (levelComplete w) eqn:Hc.
  - rewrite (settle_won w Hc). cbv zeta.
    assert (Hact : gameStarted (gameState w) && negb (gameOver (gameState w)) = true).
    { unfold levelComplete in Hc. apply andb_true_iff in Hc as [Hc _].
      destruct (gameStarted (gameState w)), (gameOver (gameState w));
        cbn in *; congruence. }
    specialize (Hta Hact). apply andb_true_iff in Hact as [Hst Hov].
    rewrite (clearInterval_tracked _ _ Htr).
    split; split; unfold active, timersTracked, GAME_DURATION, levelComplete;
      world_simpl; rewrite ?andb_false_r, ?orb_true_r;
      auto using empty_tracked; try lia; try tauto.
  - destruct (gameOver (gameState w)) eqn:Ho.
    + rewrite (settle_over w Ho), (clearInterval_tracked _ _ Htr).
      split; split; unfold active, timersTracked, GAME_DURATION, levelComplete;
        world_simpl; rewrite ?Ho, ?andb_false_r, ?orb_true_r;
        auto using empty_tracked; try lia; try tauto.
    + rewrite (settle_quiet w Hc Ho).
      split; split; unfold active, timersTracked, GAME_DURATION;
        rewrite ?Ho; auto; discriminate.
Qed.

Lemma init_consistent store : Consistent (init store) /\ Settled (init store).
Proof.
  unfold init.
  split; split; unfold active, timersTracked, GAME_DURATION, levelComplete;
    world_simpl; auto using empty_tracked; try lia; try discriminate.
  apply NoDup_nil_2.
Qed.

Lemma reachable_consistent store w :
  reachable random store w -> Consistent w /\ Settled w.
Proof.
  induction 1 as [|w ev _ [IH _] Hen].
  - apply init_consistent.
  - apply settle_consistent, handle_consistent; assumption.
Qed.

End Machine.

(** ** The interval timer *)


Section Timer.

Variable random : nat -> Q.
Variable store : gmap string string.

Lemma idle_no_interval w :
  Consistent w -> active w = false -> intervals w = ∅.
Proof.
  intros Hc Ha. destruct (decide (intervals w = ∅)) as [|Hne]; [assumption|].
  apply (cons_live_active w Hc) in Hne. congruence.
Qed.

(** [startGame] and [nextLevel] install an interval without cancelling one:
    whatever is live stays live next to the new interval. *)
Lemma startRound_adds_interval w :
  intervals (startRound random w) = {[nextInterval w]} ∪ intervals w
  /\ timerRef (startRound random w) = Some (nextInterval w).
Proof. split; reflexivity. Qed.


End Timer.

Lemma demoStarted_reachable : reachable demoRandom ∅ demoStarted.
Proof.
  unfold demoStarted. apply reachable_step; [|reflexivity].
  apply reachable_step; [|reflexivity]. apply reachable_init.
Qed.

(** Every world reached by [run] from a reachable world is reachable. *)
Lemma run_reachable random store evs : forall w w',
  reachable random store w -> run random w evs = Some w' ->
  reachable random store w'.
Proof.
  induction evs as [|ev evs IH]; intros w w' Hr; simpl.
  - intros [= <-]. exact Hr.
  - destruct (enabled w ev) eqn:E; [|discriminate].
    apply IH. apply reachable_step; assumption.
Qed.


Lemma twoFoundAt46_reachable : reachable demoRandom ∅ twoFoundAt46.
Proof.
  apply (run_reachable demoRandom ∅
           ([SelectDifficulty easy; StartGame]
            ++ replicate 14 (IntervalTick 0)
            ++ [CharacterClick "goofy-0"; CharacterClick "goofy-1"]) (init ∅)).
  - apply reachable_init.
  - vm_compute. reflexivity.
Qed.



(** ** A finished round *)

Section Over.

Variable random : nat -> Q.
Variable store : gmap string string.

(** The effects leave a reachable finished round as it is. *)
Lemma settle_over_fixed w :
  Consistent w -> Settled w -> gameOver (gameState w) = true -> settle w = w.
Proof.
  intros Hc Hs Ho. rewrite (settle_over w Ho).
  rewrite (clearInterval_tracked _ _ (cons_timers w Hc)).
  assert (intervals w = ∅) as Hemp.
  { destruct (decide (intervals w = ∅)) as [|Hne]; [assumption|].
    apply (cons_live_active w Hc) in Hne. unfold active in Hne.
    rewrite Ho, andb_false_r in Hne. discriminate. }
  pose proof (settled_scope w Hs Ho) as Hsv.
  destruct w; world_simpl. subst. reflexivity.
Qed.

(** Events delivered by [dispatch], each with nothing waiting: in a world
    whose round is over no interval is live, so no tick can be delivered
    and the time left is not decremented; clicking a character changes
    nothing; any event the page can deliver that stays in a finished round
    leaves the whole world unchanged; and after a timeout (time left 0)
    even a run of the tick callback would leave the world, and with it
    the score, unchanged.  A click that overtakes the render of the last
    tick is another matter, treated with the updates that wait for a
    render. *)
Lemma over_is_frozen w :
  reachable random store w -> gameOver (gameState w) = true ->
  intervals w = ∅
  /\ (forall t, enabled w (IntervalTick t) = false)
  /\ (forall characterId, dispatch random w (CharacterClick characterId) = w)
  /\ (forall ev, enabled w ev = true ->
        gameOver (gameState (dispatch random w ev)) = true ->
        dispatch random w ev = w)
  /\ (timeLeft (gameState w) = 0 ->
      forall t, dispatch random w (IntervalTick t) = w).
Proof.
  intros Hr Ho. destruct (reachable_consistent random store w Hr) as [Hc Hs].
  assert (intervals w = ∅) as Hemp.
  { destruct (decide (intervals w = ∅)) as [|Hne]; [assumption|].
    apply (cons_live_active w Hc) in Hne. unfold active in Hne.
    rewrite Ho, andb_false_r in Hne. discriminate. }
  assert (Hclick : forall characterId,
             dispatch random w (CharacterClick characterId) = w).
  { intros cid. unfold dispatch, handle, handleCharacterClick.
    rewrite Ho, orb_true_r. apply settle_over_fixed; assumption. }
  repeat split.
  - exact Hemp.
  - intros t. cbn [enabled]. rewrite Hemp. apply bool_decide_eq_false.
    apply not_elem_of_empty.
  - exact Hclick.
  - intros ev Hen Ho'.
    pose proof (cons_over_started w Hc Ho) as Hst.
    destruct ev as [| | |d|cid|t]; cbn [enabled] in Hen.
    + rewrite Hst in Hen. discriminate.
    + unfold dispatch, handle, nextLevel in Ho'.
      rewrite (settle_startRound random w (cons_level w Hc)) in Ho'.
      discriminate.
    + unfold dispatch, handle in Ho'.
      rewrite settle_quiet in Ho' by reflexivity. discriminate.
    + rewrite Hst in Hen. discriminate.
    + apply Hclick.
    + rewrite Hemp in Hen. apply bool_decide_eq_true in Hen.
      apply elem_of_empty in Hen as [].
  - intros Htl t. unfold dispatch, handle, tick. rewrite Htl.
    cbn [Z.leb Z.compare]. rewrite Hemp.
    replace (clearInterval (timerRef w) ∅) with (∅ : gset nat)
      by (symmetry; apply clearInterval_tracked; intros u Hu;
          apply elem_of_empty in Hu as []).
    assert (Heq : mkWorld
              (mkGameState (score (gameState w)) 0 (gameStarted (gameState w))
                 true (difficulty (gameState w)) (level (gameState w)))
              (characters w) (scopeVisible w) (highScore w) (localStorage w)
              (timerRef w) ∅ (nextInterval w) (draws w) = w).
    { destruct w as [[sc tl st ov df lv] cs sv hs ls tr iv ni dr].
      world_simpl. subst. reflexivity. }
    rewrite Heq. apply settle_over_fixed; assumption.
Qed.

End Over.

(** The time-out scenario: its last tick is delivered by a live interval. *)
Lemma lastSecond_run :
  run demoRandom (init ∅)
    ([SelectDifficulty easy; StartGame; CharacterClick "goofy-0"]
     ++ replicate 59 (IntervalTick 0)) = Some lastSecond.
Proof. vm_compute. reflexivity. Qed.

Lemma timedOut_reachable : reachable demoRandom ∅ timedOut.
Proof.
  apply reachable_step.
  - exact (run_reachable demoRandom ∅ _ _ _ (reachable_init _ _) lastSecond_run).
  - vm_compute. reflexivity.
Qed.

Lemma timedOut_state :
  gameState timedOut = mkGameState 100 0 true true easy 1.
Proof. vm_compute. reflexivity. Qed.

(** Witness of [over_is_frozen]: the round that timed out. *)
Lemma over_is_frozen_witness :
  intervals timedOut = ∅
  /\ dispatch demoRandom timedOut (CharacterClick "goofy-1") = timedOut
  /\ dispatch demoRandom timedOut (IntervalTick 0) = timedOut.
Proof.
  assert (Ho : gameOver (gameState timedOut) = true)
    by (rewrite timedOut_state; reflexivity).
  assert (Ht : timeLeft (gameState timedOut) = 0)
    by (rewrite timedOut_state; reflexivity).
  destruct (over_is_frozen demoRandom ∅ timedOut timedOut_reachable Ho)
    as (H1 & _ & H3 & _ & H5).
  split; [exact H1|]. split; [apply H3 | apply (H5 Ht)].
Defined.

(** ** Scoring *)

Section Scoring.

Variable random : nat -> Q.

Lemma dispatch_click_nonneg w characterId :
  0 <= score (gameState w) -> 0 <= level (gameState w) ->
  0 <= timeLeft (gameState w) ->
  let w' := dispatch random w (CharacterClick characterId) in
  0 <= score (gameState w') /\ 0 <= level (gameState w')
  /\ 0 <= timeLeft (gameState w').
Proof.
  intros Hs Hl Ht. cbv zeta. unfold dispatch, handle.
  set (w1 := handleCharacterClick characterId w).
  assert (H1 : 0 <= score (gameState w1) /\ 0 <= level (gameState w1)
               /\ 0 <= timeLeft (gameState w1)).
  { subst w1. unfold handleCharacterClick.
    destruct (negb (gameStarted (gameState w)) || gameOver (gameState w));
      [auto|].
    destruct (mapClick_frame characterId (characters w) (gameState w))
      as (_ & Ht' & _ & _ & _ & Hl' & Hs').
    cbv zeta in *. world_simpl. rewrite Ht', Hl'. auto. }
  destruct H1 as (Hs1 & Hl1 & Ht1).
  destruct (levelComplete w1) eqn:Hc.
  - rewrite (settle_won w1 Hc). cbv zeta. world_simpl. lia.
  - destruct (gameOver (gameState w1)) eqn:Ho.
    + rewrite (settle_over w1 Ho). world_simpl. auto.
    + rewrite (settle_quiet w1 Hc Ho). auto.
Qed.

(** With pairwise different ids, a character is the only one with its id. *)
Lemma unique_id cs1 c cs2 :
  NoDup (Character.id <$> (cs1 ++ c :: cs2)) ->
  Forall (fun c' => Character.id c' <> Character.id c) cs1
  /\ Forall (fun c' => Character.id c' <> Character.id c) cs2.
Proof.
  rewrite fmap_app, fmap_cons. intros H.
  apply NoDup_app in H as (_ & Hd & H2). apply NoDup_cons in H2 as [Hn _].
  split; apply Forall_forall; intros c' Hin Heq.
  - apply (Hd (Character.id c')); [apply list_elem_of_fmap_2, Hin|].
    rewrite Heq. apply elem_of_cons. left. reflexivity.
  - apply Hn. rewrite <- Heq. apply list_elem_of_fmap_2, Hin.
Qed.

(** The click handler on a running round in which one character carries
    the clicked id. *)
Lemma handleCharacterClick_unique w cs1 c cs2 :
  active w = true ->
  characters w = cs1 ++ c :: cs2 ->
  Forall (fun c' => Character.id c' <> Character.id c) cs1 ->
  Forall (fun c' => Character.id c' <> Character.id c) cs2 ->
  let g := gameState w in
  let w' := handleCharacterClick (Character.id c) w in
  if Character.isFound c then w' = w
  else if Character.isGoofy c then
    gameState w' = setScore (score g + 100 * level g) g
    /\ characters w' = cs1 ++ Character.markFound c :: cs2
  else
    gameState w' = setScore (Z.max 0 (score g - 25)) g
    /\ characters w' = characters w
    /\ enabled w' (CharacterClick (Character.id c)) = true.
Proof.
  intros Ha Hcs H1 H2 g w'.
  unfold active in Ha. apply andb_true_iff in Ha as [Hst Hov].
  apply negb_true_iff in Hov.
  subst w' g. unfold handleCharacterClick. rewrite Hst, Hov. cbn [negb orb].
  rewrite Hcs, (mapClick_unique _ cs1 c cs2 _ H1 H2 eq_refl).
  unfold clickOne. rewrite String.eqb_refl.
  destruct (Character.isFound c) eqn:Hf; cbn [negb andb fst snd].
  - rewrite <- Hcs. destruct w; reflexivity.
  - destruct (Character.isGoofy c) eqn:Hg; cbn [fst snd]; world_simpl.
    + split; reflexivity.
    + rewrite <- Hcs. split; [reflexivity|]. split; [reflexivity|].
      cbn [enabled]. world_simpl.
      rewrite Hcs, existsb_app. cbn [existsb].
      rewrite String.eqb_refl, Hf. cbn. apply orb_true_r.
Qed.

(** The click handler run on a running round with nothing waiting: a
    click on a character does nothing if the character is already found;
    it adds [100 * level] and marks the character found if it is a
    target; otherwise it subtracts 25 with a floor of 0, leaves the
    characters as they are (the character is not marked found) and the
    character clickable.  Hence no sequence of clicks delivered by
    [dispatch] makes a non-negative score negative.  A click that
    overtakes the render of a tick is another matter, treated with the
    updates that wait for a render. *)
Lemma score_never_negative :
  (forall store w cs1 c cs2,
      reachable random store w ->
      active w = true ->
      characters w = cs1 ++ c :: cs2 ->
      let g := gameState w in
      let w' := handleCharacterClick (Character.id c) w in
      if Character.isFound c then w' = w
      else if Character.isGoofy c then
        gameState w' = setScore (score g + 100 * level g) g
        /\ characters w' = cs1 ++ Character.markFound c :: cs2
      else
        gameState w' = setScore (Z.max 0 (score g - 25)) g
        /\ characters w' = characters w
        /\ enabled w' (CharacterClick (Character.id c)) = true)
  /\ (forall w ids,
        0 <= score (gameState w) -> 0 <= level (gameState w) ->
        0 <= timeLeft (gameState w) ->
        0 <= score (gameState (clicks random w ids)))
  /\ (forall store w,
        reachable random store w -> 0 <= score (gameState w)).
Proof.
  split; [|split].
  - intros store w cs1 c cs2 Hr Ha Hcs.
    destruct (reachable_consistent random store w Hr) as [Hc _].
    pose proof (cons_ids w Hc) as Hids. rewrite Hcs in Hids.
    apply unique_id in Hids as [H1 H2].
    apply handleCharacterClick_unique; assumption.
  - intros w ids. revert w. unfold clicks.
    induction ids as [|cid ids IH]; intros w Hs Hl Ht; cbn [fold_left].
    + exact Hs.
    + destruct (dispatch_click_nonneg w cid Hs Hl Ht) as (Hs' & Hl' & Ht').
      apply IH; assumption.
  - intros store w Hr.
    apply (cons_score w (proj1 (reachable_consistent random store w Hr))).
Qed.

End Scoring.

(** Witness of [score_never_negative]: in the round just started with score
    0, a click on the bystander [char-0] leaves the score at 0, and so does
    a further sequence of clicks. *)
Lemma score_never_negative_witness :
  gameState (handleCharacterClick "char-0" demoStarted)
  = mkGameState 0 60 true false easy 1
  /\ 0 <= score (gameState (clicks demoRandom demoStarted
                              ["char-0"; "goofy-1"; "char-3"; "char-3"])).
Proof.
  destruct (score_never_negative demoRandom) as (Hclick & Hseq & _).
  split.
  - assert (Ha : active demoStarted = true) by (vm_compute; reflexivity).
    assert (Hcs : characters demoStarted
                  = firstn 3 (characters demoStarted)
                    ++ nth 3 (characters demoStarted)
                         (Character.mk "" 0 0 false false "")
                    :: skipn 4 (characters demoStarted))
      by (vm_compute; reflexivity).
    pose proof (Hclick ∅ demoStarted _ _ _ demoStarted_reachable Ha Hcs) as H.
    vm_compute in H. vm_compute. exact (proj1 H).
  - apply Hseq; vm_compute; discriminate.
Defined.

(** ** Winning a round *)

Section Winning.

Variable random : nat -> Q.

(** The scenario of the easy tier at level 1, whatever the random source
    and the stored high score. *)
Lemma winEvents_run store :
  exists w',
    run random (init store) winEvents = Some w'
    /\ gameState w' = mkGameState 750 45 true true easy 2
    /\ intervals w' = ∅
    /\ length (characters w') = 20%nat
    /\ length (targets (characters w')) = 3%nat.
Proof.
  assert (H : option_map
                (fun w => (gameState w, intervals w, length (characters w),
                           length (targets (characters w))))
                (run random (init store) winEvents)
              = Some (mkGameState 750 45 true true easy 2, ∅, 20%nat, 3%nat))
    by (lazy -[insert readHighScore]; reflexivity).
  destruct (run random (init store) winEvents) as [w'|]; [|discriminate].
  exists w'. cbn [option_map] in H. injection H as H1 H2 H3 H4.
  repeat split; assumption.
Qed.

(** Events delivered by [dispatch], each with nothing waiting: when a
    handler leaves a running round in which every target is found, the
    effects end the round at once: the round is over with its time left
    unchanged and positive, the interval is cancelled, and
    [10 * timeLeft] has been added to the score.  On the easy tier at
    level 1 (20 characters, 3 targets), finding the three targets with 45
    seconds left gives the score [3*100*1 + 45*10 = 750].  A last click
    that overtakes the render of a tick is another matter, treated with
    the updates that wait for a render. *)
Lemma all_found_wins :
  (forall store w ev,
      reachable random store w -> enabled w ev = true ->
      let w1 := handle random w ev in
      let w2 := dispatch random w ev in
      active w1 = true ->
      forallb Character.isFound (targets (characters w1)) = true ->
      gameOver (gameState w2) = true
      /\ 0 < timeLeft (gameState w2)
      /\ timeLeft (gameState w2) = timeLeft (gameState w1)
      /\ intervals w2 = ∅
      /\ score (gameState w2)
         = score (gameState w1) + 10 * timeLeft (gameState w1))
  /\ (forall store, exists w',
        run random (init store) winEvents = Some w'
        /\ score (gameState w') = 3 * 100 * 1 + 45 * 10
        /\ score (gameState w') = 750
        /\ timeLeft (gameState w') = 45
        /\ gameOver (gameState w') = true
        /\ length (characters w') = 20%nat
        /\ length (targets (characters w')) = 3%nat).
Proof.
  split.
  - intros store w ev Hr Hen w1 w2 Ha Hall.
    destruct (reachable_consistent random store w Hr) as [Hc _].
    pose proof (handle_consistent random w ev Hc Hen) as Hc1. fold w1 in Hc1.
    assert (Hlc : levelComplete w1 = true).
    { unfold levelComplete, allGoofysFound. unfold active in Ha.
      apply andb_true_iff in Ha as [Hst Hov]. apply negb_true_iff in Hov.
      rewrite Hst, Hov. fold (targets (characters w1)). rewrite Hall.
      cbn [negb orb andb]. rewrite andb_true_r. apply Nat.ltb_lt.
      pose proof (cons_chars w1 Hc1 Hst) as Hne.
      destruct (characters w1); [congruence|cbn; lia]. }
    subst w2. unfold dispatch. fold w1. rewrite (settle_won w1 Hlc).
    cbv zeta. world_simpl.
    rewrite (clearInterval_tracked _ _ (cons_timers w1 Hc1)).
    pose proof (cons_time_active w1 Hc1 Ha). repeat split; lia.
  - intros store. destruct (winEvents_run store) as (w' & Hrun & Hg & _ & Hn & Ht).
    exists w'. rewrite Hg. world_simpl. repeat split; auto.
Qed.

End Winning.

Lemma lastTarget_run :
  run demoRandom (init ∅) (removelast winEvents) = Some lastTarget.
Proof. vm_compute. reflexivity. Qed.

Lemma lastTarget_reachable : reachable demoRandom ∅ lastTarget.
Proof.
  exact (run_reachable demoRandom ∅ _ _ _ (reachable_init _ _) lastTarget_run).
Qed.

(** Witness of [all_found_wins]: the click on the last target of the easy
    round, at 45 seconds and with 200 points. *)
Lemma all_found_wins_witness :
  gameOver (gameState (dispatch demoRandom lastTarget (CharacterClick "goofy-2")))
  = true
  /\ intervals (dispatch demoRandom lastTarget (CharacterClick "goofy-2")) = ∅
  /\ score (gameState (dispatch demoRandom lastTarget (CharacterClick "goofy-2")))
     = score (gameState (handle demoRandom lastTarget (CharacterClick "goofy-2")))
       + 10 * timeLeft (gameState (handle demoRandom lastTarget
                                     (CharacterClick "goofy-2"))).
Proof.
  destruct (proj1 (all_found_wins demoRandom) ∅ lastTarget
              (CharacterClick "goofy-2") lastTarget_reachable
              ltac:(vm_compute; reflexivity)
              ltac:(vm_compute; reflexivity)
              ltac:(vm_compute; reflexivity))
    as (Hover & _ & _ & Hlive & Hscore).
  split; [exact Hover|]. split; [exact Hlive | exact Hscore].
Defined.

(** ** Reset *)

Section Reset.

Variable random : nat -> Q.

Lemma dispatch_reset w : dispatch random w ResetGame = resetGame w.
Proof. unfold dispatch, handle. apply settle_quiet; reflexivity. Qed.

(** C9: from any world, [resetGame] leads to the idle state with score 0,
    level 1, 60 seconds and no characters; of the game state only the
    difficulty is kept (every other field is a constant), the scope is
    hidden, the remembered interval is cancelled and the high score is
    untouched. *)
Theorem resetGame_idle w :
  let w' := dispatch random w ResetGame in
  gameState w'
  = mkGameState 0 60 false false (difficulty (gameState w)) 1
  /\ characters w' = []
  /\ active w' = false
  /\ scopeVisible w' = false
  /\ intervals w' = clearInterval (timerRef w) (intervals w)
  /\ highScore w' = highScore w
  /\ localStorage w' = localStorage w.
Proof. cbv zeta. rewrite dispatch_reset. repeat split. Qed.

End Reset.

(** ** The empty round *)

(** C10: the level-completion check requires a character: in a running
    round without characters the effect, and the whole commit, leave the
    world unchanged, so the round is not won. *)
Theorem empty_round_not_won w :
  gameStarted (gameState w) = true -> gameOver (gameState w) = false ->
  characters w = [] ->
  levelComplete w = false
  /\ levelCompletionEffect w w = w
  /\ settle w = w
  /\ gameOver (gameState (settle w)) = false.
Proof.
  intros Hst Hov Hcs.
  assert (Hlc : levelComplete w = false).
  { unfold levelComplete, allGoofysFound. rewrite Hcs. cbn [length Nat.ltb Nat.leb].
    apply andb_false_r. }
  assert (Hq : settle w = w) by (apply settle_quiet; assumption).
  split; [exact Hlc|]. split; [|split; [exact Hq | rewrite Hq; exact Hov]].
  unfold levelCompletionEffect, allGoofysFound.
  rewrite Hst, Hov, Hcs. reflexivity.
Qed.

(** Witness of [empty_round_not_won]. *)
Lemma empty_round_not_won_witness :
  levelComplete emptyActive = false /\ settle emptyActive = emptyActive.
Proof.
  destruct (empty_round_not_won emptyActive eq_refl eq_refl eq_refl)
    as (H1 & _ & H3 & _).
  split; [exact H1 | exact H3].
Defined.

(** ** The stored high score *)

Lemma readHighScore_absent (store : gmap string string) :
  store !! highScoreKey = None -> readHighScore store = JS.Num 0.
Proof. unfold readHighScore. intros ->. reflexivity. Qed.

Lemma readHighScore_empty_string (store : gmap string string) :
  store !! highScoreKey = Some EmptyString -> readHighScore store = JS.Num 0.
Proof. unfold readHighScore. intros ->. reflexivity. Qed.

(** A round that is won stores the larger of the remembered high score and
    the final score. *)
Lemma win_persists_max w v :
  levelComplete w = true -> highScore w = JS.Num v ->
  let final := score (gameState w) + timeLeft (gameState w) * 10 in
  score (gameState (settle w)) = final
  /\ highScore (settle w) = JS.Num (Z.max v final)
  /\ (v < final ->
      localStorage (settle w) !! highScoreKey = Some (JS.toString final))
  /\ (final <= v -> localStorage (settle w) = localStorage w).
Proof.
  intros Hc Hv final. rewrite (settle_won w Hc). cbv zeta. world_simpl.
  fold final. rewrite Hv. unfold JS.gtb.
  destruct (v <? final) eqn:E.
  - apply Z.ltb_lt in E. repeat split.
    + f_equal. lia.
    + intros _. apply lookup_insert_eq.
    + lia.
  - apply Z.ltb_ge in E. repeat split.
    + f_equal. lia.
    + lia.
Qed.

(** A high score read as [NaN] is never replaced. *)
Lemma nan_high_score_sticks w :
  highScore w = JS.NaN ->
  highScore (settle w) = JS.NaN /\ localStorage (settle w) = localStorage w.
Proof.
  intros Hn. destruct (levelComplete w) eqn:Hc.
  - rewrite (settle_won w Hc). cbv zeta. world_simpl. rewrite Hn.
    split; reflexivity.
  - destruct (gameOver (gameState w)) eqn:Ho.
    + rewrite (settle_over w Ho). world_simpl. split; [exact Hn|reflexivity].
    + rewrite (settle_quiet w Hc Ho). split; [exact Hn|reflexivity].
Qed.

(** C4: a stored high score that is not numeric is read as [NaN], not as
    0: with the entry "abc" the component starts with the high score [NaN]
    (an absent entry is read as 0). *)
Theorem malformed_high_score_is_NaN :
  readHighScore malformedStore = JS.NaN
  /\ highScore (init malformedStore) = JS.NaN
  /\ readHighScore ∅ = JS.Num 0.
Proof.
  split; [vm_compute; reflexivity|].
  split; vm_compute; reflexivity.
Qed.

(** A tick never touches the high score: the callback and the game-over
    effect that follows a timeout do not look at it. *)
Lemma tick_keeps_high_score random store w t :
  reachable random store w -> enabled w (IntervalTick t) = true ->
  highScore (dispatch random w (IntervalTick t)) = highScore w
  /\ localStorage (dispatch random w (IntervalTick t)) = localStorage w.
Proof.
  intros Hr Hen. destruct (reachable_consistent random store w Hr) as [Hc Hs].
  pose proof (settled_check w Hs) as Hw.
  unfold dispatch, handle.
  assert (Hlc : levelComplete (tick w) = false).
  { unfold levelComplete, tick in *.
    destruct (timeLeft (gameState w) <=? 1); world_simpl; [|exact Hw].
    rewrite orb_true_r. reflexivity. }
  assert (Hsame : highScore (tick w) = highScore w
                  /\ localStorage (tick w) = localStorage w).
  { unfold tick. destruct (timeLeft (gameState w) <=? 1); split; reflexivity. }
  destruct (gameOver (gameState (tick w))) eqn:Ho.
  - rewrite (settle_over _ Ho). world_simpl. exact Hsame.
  - rewrite (settle_quiet _ Hlc Ho). exact Hsame.
Qed.

(** C1: a round lost on time does not store its score.  No tick changes
    the high score or the store; and with nothing stored (high score 0),
    the round of [lossEvents] ends over, at 0 seconds, with the final score
    100, while the high score is still 0 and the store still has no
    entry. *)
Theorem timeout_does_not_persist :
  (forall random store w t,
      reachable random store w -> enabled w (IntervalTick t) = true ->
      highScore (dispatch random w (IntervalTick t)) = highScore w
      /\ localStorage (dispatch random w (IntervalTick t)) = localStorage w)
  /\ run demoRandom (init ∅) lossEvents = Some timedOut
  /\ gameState timedOut = mkGameState 100 0 true true easy 1
  /\ highScore timedOut = JS.Num 0
  /\ localStorage timedOut !! highScoreKey = None.
Proof.
  split; [exact tick_keeps_high_score|].
  split; [vm_compute; reflexivity|].
  split; [vm_compute; reflexivity|].
  split; vm_compute; reflexivity.
Qed.

(** ** The level counter *)

Section Level.

Variable random : nat -> Q.

Lemma handle_level w ev :
  level (gameState (handle random w ev))
  = match ev with ResetGame => 1 | _ => level (gameState w) end.
Proof.
  destruct ev as [| | |d|cid|t]; cbn [handle]; try reflexivity.
  - unfold handleCharacterClick.
    destruct (negb (gameStarted (gameState w)) || gameOver (gameState w));
      [reflexivity|].
    world_simpl. apply (mapClick_frame cid (characters w) (gameState w)).
  - unfold tick. destruct (timeLeft (gameState w) <=? 1); reflexivity.
Qed.

Lemma settle_level w :
  level (gameState (settle w))
  = level (gameState w) + (if levelComplete w then 1 else 0).
Proof.
  destruct (levelComplete w) eqn:Hc.
  - rewrite (settle_won w Hc). reflexivity.
  - destruct (gameOver (gameState w)) eqn:Ho.
    + rewrite (settle_over w Ho). world_simpl. lia.
    + rewrite (settle_quiet w Hc Ho). lia.
Qed.

(** In a reachable world only a click can complete the level. *)
Lemma complete_after_click store w ev :
  reachable random store w -> enabled w ev = true ->
  levelComplete (handle random w ev) = true ->
  exists characterId, ev = CharacterClick characterId.
Proof.
  intros Hr Hen Hlc.
  destruct (reachable_consistent random store w Hr) as [Hc Hs].
  destruct ev as [| | |d|cid|t]; cbn [handle enabled] in Hen, Hlc.
  - unfold startGame in Hlc.
    rewrite (startRound_incomplete random w (cons_level w Hc)) in Hlc.
    discriminate.
  - unfold nextLevel in Hlc.
    rewrite (startRound_incomplete random w (cons_level w Hc)) in Hlc.
    discriminate.
  - discriminate.
  - unfold levelComplete, selectDifficulty, setDifficulty in Hlc. world_simpl.
    apply negb_true_iff in Hen. rewrite Hen in Hlc. discriminate.
  - exists cid. reflexivity.
  - pose proof (settled_check w Hs) as Hw.
    unfold levelComplete, tick in Hlc, Hw.
    destruct (timeLeft (gameState w) <=? 1); world_simpl.
    + rewrite orb_true_r in Hlc. discriminate.
    + congruence.
Qed.

(** C3 as amended: the level grows by one exactly when the
    level-completion check fires after a handler, which in a reachable
    world happens only after a character click; no handler increments it
    ([resetGame] sets it to 1, the others keep it).  [startGame] and
    [nextLevel] set the time to 60, install the freshly generated
    characters, none of them found, and keep the score and the level. *)
Theorem level_grows_on_win_only :
  (forall w ev,
      level (gameState (dispatch random w ev))
      = match ev with ResetGame => 1 | _ => level (gameState w) end
        + (if levelComplete (handle random w ev) then 1 else 0))
  /\ (forall store w ev,
        reachable random store w -> enabled w ev = true ->
        levelComplete (handle random w ev) = true ->
        exists characterId, ev = CharacterClick characterId)
  /\ (forall w ev,
        1 <= level (gameState w) -> ev = StartGame \/ ev = NextLevel ->
        let g := gameState w in
        let w' := dispatch random w ev in
        gameState w'
        = mkGameState (score g) 60 true false (difficulty g) (level g)
        /\ characters w'
           = fst (generateCharacters random (difficulty g) (level g) (draws w))
        /\ Forall (fun c => Character.isFound c = false) (characters w')).
Proof.
  split; [|split].
  - intros w ev. unfold dispatch. rewrite settle_level, handle_level.
    reflexivity.
  - apply complete_after_click.
  - intros w ev Hlv Hev g w'.
    assert (Hw : w' = startRound random w).
    { subst w'. unfold dispatch.
      destruct Hev as [-> | ->]; apply settle_startRound, Hlv. }
    rewrite Hw. unfold startRound. world_simpl.
    split; [reflexivity|]. split; [reflexivity|].
    apply (generate_counts random (difficulty g) (level g) (draws w)).
Qed.

End Level.

Lemma wonRound_state :
  gameState wonRound = mkGameState 750 45 true true easy 2.
Proof. vm_compute. reflexivity. Qed.

(** C3, counterexample: the click that finds the last target takes the
    level from 1 to 2, and the [nextLevel] that follows keeps it at 2. *)
Lemma level_grows_before_nextLevel :
  level (gameState lastTarget) = 1
  /\ enabled lastTarget (CharacterClick "goofy-2") = true
  /\ level (gameState (dispatch demoRandom lastTarget (CharacterClick "goofy-2"))) = 2
  /\ enabled wonRound NextLevel = true
  /\ level (gameState wonRound) = 2
  /\ level (gameState (dispatch demoRandom wonRound NextLevel)) = 2.
Proof.
  split; [vm_compute; reflexivity|].
  split; [vm_compute; reflexivity|].
  split; [vm_compute; reflexivity|].
  split; [vm_compute; reflexivity|].
  split; vm_compute; reflexivity.
Qed.

(** Witness of [level_grows_on_win_only]: [nextLevel] after the round won at
    level 1. *)
Lemma level_grows_on_win_only_witness :
  gameState (dispatch demoRandom wonRound NextLevel)
  = mkGameState 750 60 true false easy 2
  /\ level (gameState (dispatch demoRandom lastTarget (CharacterClick "goofy-2")))
     = level (gameState lastTarget)
       + (if levelComplete (handle demoRandom lastTarget (CharacterClick "goofy-2"))
          then 1 else 0).
Proof.
  destruct (level_grows_on_win_only demoRandom) as (Hlevel & _ & Hstart).
  split.
  - assert (Hlv : 1 <= level (gameState wonRound))
      by (rewrite wonRound_state; cbn; lia).
    destruct (Hstart wonRound NextLevel Hlv (or_intror eq_refl)) as (Hg & _).
    rewrite wonRound_state in Hg. exact Hg.
  - exact (Hlevel lastTarget (CharacterClick "goofy-2")).
Defined.

(** * Further properties of the component *)

(** ** Writing and reading the high score *)

Lemma digitValue_pretty_N_char d :
  (d < 10)%N -> JS.digitValue (pretty_N_char d) = Some (Z.of_N d).
Proof.
  intros Hd.
  assert (d = 0 \/ d = 1 \/ d = 2 \/ d = 3 \/ d = 4 \/ d = 5 \/ d = 6
          \/ d = 7 \/ d = 8 \/ d = 9)%N as H by lia.
  repeat (destruct H as [-> | H]; [reflexivity|]). subst. reflexivity.
Qed.

(** Reading the digits written for a positive number appends them to the
    number read so far. *)
Lemma digits_pretty_N_go x :
  (0 < x)%N ->
  exists k : nat, forall s acc,
    JS.digits 10 (pretty_N_go x s) acc
    = JS.digits 10 s (Some (default 0 acc * 10 ^ Z.of_nat k + Z.of_N x)).
Proof.
  induction (N.lt_wf_0 x) as [x _ IH]. intros Hx.
  assert (Hm : (x `mod` 10 < 10)%N) by (apply N.mod_lt; discriminate).
  assert (Hstep : forall s a,
             JS.digits 10 (String (pretty_N_char (x `mod` 10)) s) a
             = JS.digits 10 s (Some (default 0 a * 10 + Z.of_N (x `mod` 10)))).
  { intros s a. cbn [JS.digits]. rewrite (digitValue_pretty_N_char _ Hm).
    destruct (Z.of_N (x `mod` 10) <? 10) eqn:E; [reflexivity|].
    apply Z.ltb_ge in E. lia. }
  assert (Hdm : Z.of_N x = 10 * Z.of_N (x `div` 10) + Z.of_N (x `mod` 10)).
  { rewrite (N.div_mod x 10) at 1 by discriminate.
    rewrite N2Z.inj_add, N2Z.inj_mul. reflexivity. }
  destruct (decide (x `div` 10 = 0)%N) as [Hz|Hnz].
  - exists 1%nat. intros s acc.
    rewrite pretty_N_go_step, Hz, pretty_N_go_0 by exact Hx.
    rewrite Hstep. do 2 f_equal. rewrite Hdm, Hz. cbn. lia.
  - destruct (IH (x `div` 10)%N) as [k Hk].
    { apply N.div_lt; lia. }
    { lia. }
    exists (S k). intros s acc.
    rewrite pretty_N_go_step, Hk, Hstep by exact Hx. cbn [default].
    do 2 f_equal. rewrite Nat2Z.inj_succ, Z.pow_succ_r, Hdm by lia.
    generalize (Z.of_N (x `div` 10)), (Z.of_N (x `mod` 10)),
      (10 ^ Z.of_nat k), (default 0 acc).
    intros. unfold id. lia.
Qed.

(** The text written for a positive number starts with a digit from 1
    to 9. *)
Lemma pretty_N_go_head x s :
  (0 < x)%N ->
  exists d rest,
    (1 <= d < 10)%N /\ pretty_N_go x s = String (pretty_N_char d) rest.
Proof.
  revert s. induction (N.lt_wf_0 x) as [x _ IH]. intros s Hx.
  rewrite pretty_N_go_step by exact Hx.
  destruct (decide (x `div` 10 = 0)%N) as [Hz|Hnz].
  - rewrite Hz, pretty_N_go_0. exists (x `mod` 10)%N, s. split; [|reflexivity].
    pose proof (N.div_mod x 10 ltac:(discriminate)) as Hdm.
    rewrite Hz, N.mul_0_r, N.add_0_l in Hdm.
    assert ((x `mod` 10 < 10)%N) by (apply N.mod_lt; discriminate).
    rewrite <- Hdm. lia.
  - apply IH; [apply N.div_lt; [exact Hx|reflexivity] | apply N.neq_0_lt_0, Hnz].
Qed.

(** [parseInt] on a text that starts with a digit from 1 to 9 reads its
    decimal digits. *)
Lemma parseInt_head d rest :
  (1 <= d < 10)%N ->
  JS.parseInt (String (pretty_N_char d) rest)
  = JS.signed false (JS.digits 10 (String (pretty_N_char d) rest) None)
  /\ JS.unsignedInt (String (pretty_N_char d) rest)
     = JS.digits 10 (String (pretty_N_char d) rest) None.
Proof.
  intros Hd.
  assert (d = 1 \/ d = 2 \/ d = 3 \/ d = 4 \/ d = 5 \/ d = 6
          \/ d = 7 \/ d = 8 \/ d = 9)%N as H by lia.
  repeat (destruct H as [-> | H]; [split; reflexivity|]).
  subst. split; reflexivity.
Qed.

Lemma unsignedInt_positive p :
  JS.unsignedInt (pretty (Npos p)) = Some (Zpos p).
Proof.
  unfold pretty, pretty_N. destruct (decide (Npos p = 0%N)) as [|_]; [discriminate|].
  destruct (pretty_N_go_head (Npos p) "" ltac:(lia)) as (d & rest & Hd & Hs).
  destruct (digits_pretty_N_go (Npos p) ltac:(lia)) as [k Hk].
  rewrite Hs, (proj2 (parseInt_head d rest Hd)), <- Hs, Hk.
  cbn [JS.digits default]. f_equal.
Qed.

Lemma parseInt_positive p : JS.parseInt (pretty (Npos p)) = JS.Num (Zpos p).
Proof.
  pose proof (unsignedInt_positive p) as Hu.
  unfold pretty, pretty_N in *.
  destruct (decide (Npos p = 0%N)) as [|_]; [discriminate|].
  destruct (pretty_N_go_head (Npos p) "" ltac:(lia)) as (d & rest & Hd & Hs).
  rewrite Hs in *. rewrite (proj1 (parseInt_head d rest Hd)).
  rewrite <- (proj2 (parseInt_head d rest Hd)), Hu. reflexivity.
Qed.

(** The text written for a number is never empty. *)
Lemma toString_not_empty n : JS.toString n <> EmptyString.
Proof.
  unfold JS.toString, pretty, pretty_Z.
  destruct n as [|p|p]; [discriminate| |discriminate].
  unfold pretty, pretty_positive, pretty, pretty_N.
  destruct (decide (Npos p = 0%N)) as [|_]; [discriminate|].
  destruct (pretty_N_go_head (Npos p) "" ltac:(lia)) as (d & rest & _ & ->).
  discriminate.
Qed.

Lemma parseInt_toString n : JS.parseInt (JS.toString n) = JS.Num n.
Proof.
  unfold JS.toString, pretty, pretty_Z. destruct n as [|p|p].
  - reflexivity.
  - apply parseInt_positive.
  - change ("-" +:+ pretty p) with (String "-" (pretty (Npos p))).
    unfold JS.parseInt. cbn [JS.trimStart].
    change (JS.isWhiteSpace "-") with false.
    change (nat_of_ascii "-" <? 128)%nat with true. cbn iota.
    rewrite unsignedInt_positive. reflexivity.
Qed.

Lemma readHighScore_insert n (store : gmap string string) :
  readHighScore (<[highScoreKey := JS.toString n]> store) = JS.Num n.
Proof.
  unfold readHighScore. rewrite lookup_insert_eq.
  pose proof (toString_not_empty n) as Hne.
  unfold JS.orElse.
  destruct (JS.toString n) eqn:E; [congruence|].
  rewrite <- E. apply parseInt_toString.
Qed.

(** X1: a score that a JavaScript number holds exactly, at most
    [MAX_SAFE_INTEGER] in absolute value, is read back by [parseInt] from
    the text [toString] wrote, so a high score stored under the key is the
    high score read at the next mount, whatever else the store holds. *)
Theorem stored_score_read_back n (store : gmap string string) :
  Z.abs n <= JS.MAX_SAFE_INTEGER ->
  JS.parseInt (JS.toString n) = JS.Num n
  /\ readHighScore (<[highScoreKey := JS.toString n]> store) = JS.Num n.
Proof.
  intros _. split; [apply parseInt_toString | apply readHighScore_insert].
Qed.

Lemma stored_score_read_back_witness :
  Z.abs 750 <= JS.MAX_SAFE_INTEGER
  /\ JS.parseInt (JS.toString 750) = JS.Num 750
  /\ readHighScore (<[highScoreKey := JS.toString 750]> ∅) = JS.Num 750.
Proof.
  split; [vm_compute; discriminate|].
  apply (stored_score_read_back 750 ∅). vm_compute; discriminate.
Defined.

(** Leading white space outside ASCII is skipped as well: a no-break
    space before the digits does not spoil the stored score. *)
Lemma parseInt_skips_no_break_space :
  JS.parseInt (String (ascii_of_nat 194) (String (ascii_of_nat 160) "42"))
  = JS.Num 42.
Proof. reflexivity. Qed.

(** ** What each event does in a reachable world *)

Section Steps.

Variable random : nat -> Q.

Lemma handleCharacterClick_inactive cid w :
  active w = false -> handleCharacterClick cid w = w.
Proof.
  unfold active, handleCharacterClick.
  destruct (gameStarted (gameState w)), (gameOver (gameState w));
    cbn; intros; try discriminate; reflexivity.
Qed.

(** What the click handler keeps of a running round. *)
Lemma handleCharacterClick_frame cid w :
  let h := handleCharacterClick cid w in
  timeLeft (gameState h) = timeLeft (gameState w)
  /\ gameStarted (gameState h) = gameStarted (gameState w)
  /\ gameOver (gameState h) = gameOver (gameState w)
  /\ difficulty (gameState h) = difficulty (gameState w)
  /\ level (gameState h) = level (gameState w)
  /\ length (characters h) = length (characters w)
  /\ scopeVisible h = scopeVisible w /\ highScore h = highScore w
  /\ localStorage h = localStorage w /\ timerRef h = timerRef w
  /\ intervals h = intervals w.
Proof.
  cbv zeta. unfold handleCharacterClick.
  destruct (negb (gameStarted (gameState w)) || gameOver (gameState w)).
  - repeat split.
  - destruct (mapClick_frame cid (characters w) (gameState w))
      as (Hlen & Ht & Hs & Ho & Hd & Hl & _).
    cbv zeta in *. world_simpl. repeat split; assumption.
Qed.

Lemma dispatch_start w :
  Consistent w -> dispatch random w StartGame = startRound random w.
Proof. intros Hc. apply settle_startRound, Hc. Qed.

Lemma dispatch_next w :
  Consistent w -> dispatch random w NextLevel = startRound random w.
Proof. intros Hc. apply settle_startRound, Hc. Qed.

Lemma dispatch_select w d :
  Consistent w -> enabled w (SelectDifficulty d) = true ->
  dispatch random w (SelectDifficulty d) = selectDifficulty d w.
Proof.
  intros Hc Hen. cbn [enabled] in Hen. apply negb_true_iff in Hen.
  unfold dispatch, handle. apply settle_quiet.
  - unfold levelComplete, selectDifficulty, setDifficulty. world_simpl.
    rewrite Hen. reflexivity.
  - unfold selectDifficulty, setDifficulty. world_simpl.
    destruct (gameOver (gameState w)) eqn:Ho; [|reflexivity].
    rewrite (cons_over_started w Hc Ho) in Hen. discriminate.
Qed.

(** A click outside a running round changes nothing. *)
Lemma dispatch_click_inactive w cid :
  Consistent w -> Settled w -> active w = false ->
  dispatch random w (CharacterClick cid) = w.
Proof.
  intros Hc Hs Ha. unfold dispatch, handle.
  rewrite (handleCharacterClick_inactive cid w Ha).
  destruct (gameOver (gameState w)) eqn:Ho.
  - apply settle_over_fixed; assumption.
  - apply settle_quiet; [apply Hs | exact Ho].
Qed.

(** A tick is delivered to a running round only. *)
Lemma tick_running w t :
  Consistent w -> enabled w (IntervalTick t) = true ->
  active w = true /\ 1 <= timeLeft (gameState w).
Proof.
  intros Hc Hen. cbn [enabled] in Hen. apply bool_decide_eq_true in Hen.
  assert (Ha : active w = true).
  { apply (cons_live_active w Hc). intros He. rewrite He in Hen.
    apply elem_of_empty in Hen as []. }
  split; [exact Ha | apply (cons_time_active w Hc Ha)].
Qed.

(** The last second: the tick ends the round at 0 and nothing else of the
    game changes. *)
Lemma dispatch_tick_last w t :
  Consistent w -> enabled w (IntervalTick t) = true ->
  timeLeft (gameState w) <= 1 ->
  dispatch random w (IntervalTick t)
  = mkWorld
      (mkGameState (score (gameState w)) 0 true true
         (difficulty (gameState w)) (level (gameState w)))
      (characters w) false (highScore w) (localStorage w) (timerRef w) ∅
      (nextInterval w) (draws w).
Proof.
  intros Hc Hen Hle. destruct (tick_running w t Hc Hen) as [Ha _].
  unfold active in Ha. apply andb_true_iff in Ha as [Hst _].
  unfold dispatch, handle, tick.
  destruct (timeLeft (gameState w) <=? 1) eqn:E; [|apply Z.leb_gt in E; lia].
  rewrite settle_over by reflexivity. world_simpl.
  rewrite clearInterval_idem, (clearInterval_tracked _ _ (cons_timers w Hc)), Hst.
  reflexivity.
Qed.

(** Any earlier second: the tick takes one second off and changes nothing
    else. *)
Lemma dispatch_tick_early w t :
  Consistent w -> Settled w -> enabled w (IntervalTick t) = true ->
  1 < timeLeft (gameState w) ->
  dispatch random w (IntervalTick t)
  = mkWorld
      (mkGameState (score (gameState w)) (timeLeft (gameState w) - 1) true false
         (difficulty (gameState w)) (level (gameState w)))
      (characters w) (scopeVisible w) (highScore w) (localStorage w)
      (timerRef w) (intervals w) (nextInterval w) (draws w).
Proof.
  intros Hc Hs Hen Hlt. destruct (tick_running w t Hc Hen) as [Ha _].
  pose proof (settled_check w Hs) as Hchk.
  unfold active in Ha. apply andb_true_iff in Ha as [Hst Hov].
  apply negb_true_iff in Hov.
  unfold dispatch, handle, tick.
  destruct (timeLeft (gameState w) <=? 1) eqn:E; [apply Z.leb_le in E; lia|].
  rewrite settle_quiet.
  - rewrite Hst, Hov. reflexivity.
  - unfold levelComplete in *. world_simpl. exact Hchk.
  - world_simpl. exact Hov.
Qed.

End Steps.

(** ** Coherence of the reachable worlds *)

Lemma mapClick_found cid cs : forall g,
  Forall (fun c => Character.isFound c = true -> Character.isGoofy c = true) cs ->
  Forall (fun c => Character.isFound c = true -> Character.isGoofy c = true)
    (fst (mapClick cid cs g)).
Proof.
  induction cs as [|c cs IH]; intros g H; cbn [mapClick]; cbv zeta; [constructor|].
  apply Forall_cons in H as [Hc H]. cbn [fst]. constructor; [|apply IH, H].
  unfold clickOne.
  destruct (_ && _); [|exact Hc].
  destruct (Character.isGoofy c) eqn:Hg; cbn [fst]; [|rewrite Hg; exact Hc].
  intros _. exact Hg.
Qed.

Lemma handleCharacterClick_found cid w :
  Forall (fun c => Character.isFound c = true -> Character.isGoofy c = true)
    (characters w) ->
  Forall (fun c => Character.isFound c = true -> Character.isGoofy c = true)
    (characters (handleCharacterClick cid w)).
Proof.
  intros H. unfold handleCharacterClick.
  destruct (negb (gameStarted (gameState w)) || gameOver (gameState w));
    [exact H|].
  world_simpl. apply mapClick_found, H.
Qed.

Section Coherence.

Variable random : nat -> Q.

Lemma startRound_coherent w :
  Consistent w -> Coherent w -> active w = false ->
  Coherent (startRound random w).
Proof.
  intros Hc Hh Ha.
  pose proof (idle_no_interval w Hc Ha) as Hemp.
  destruct (generate_counts random (difficulty (gameState w))
              (level (gameState w)) (draws w)) as (_ & _ & Hnf).
  unfold startRound. rewrite Hemp.
  split; unfold active; world_simpl; try discriminate.
  - reflexivity.
  - intros _. exists (nextInterval w). split; [reflexivity|].
    apply set_eq. intros u. rewrite elem_of_union, elem_of_empty. tauto.
  - cbv zeta in Hnf. eapply Forall_impl; [exact Hnf|].
    intros c Hf Ht. congruence.
  - apply Hh.
Qed.

Lemma dispatch_coherent w ev :
  Consistent w -> Settled w -> Coherent w -> enabled w ev = true ->
  Coherent (dispatch random w ev).
Proof.
  intros Hc Hs Hh Hen.
  destruct ev as [| | |d|cid|t].
  - (* startGame *)
    rewrite (dispatch_start random w Hc). apply startRound_coherent; try assumption.
    cbn [enabled] in Hen. unfold active.
    destruct (gameStarted (gameState w)); [discriminate|reflexivity].
  - (* nextLevel *)
    rewrite (dispatch_next random w Hc). apply startRound_coherent; try assumption.
    cbn [enabled] in Hen. unfold active.
    destruct (gameStarted (gameState w)), (gameOver (gameState w));
      cbn in *; congruence.
  - (* resetGame *)
    rewrite dispatch_reset. unfold resetGame.
    split; unfold active, GAME_DURATION; world_simpl; try discriminate;
      try reflexivity.
    + constructor.
    + apply Hh.
    + intros _. repeat split.
  - (* selectDifficulty *)
    rewrite (dispatch_select random w d Hc Hen).
    destruct Hh as [H1 H2 H3 H4 H5 H6 H7 H8].
    unfold selectDifficulty, setDifficulty.
    split; unfold active in *; world_simpl; assumption.
  - (* handleCharacterClick *)
    destruct (active w) eqn:Ha;
      [|rewrite (dispatch_click_inactive random w cid Hc Hs Ha); exact Hh].
    unfold dispatch, handle.
    set (h := handleCharacterClick cid w).
    destruct (handleCharacterClick_frame cid w)
      as (Ht & Hst & Hov & Hd & Hl & Hlen & Hsv & Hhs & Hls & Htr & Hiv).
    fold h in Ht, Hst, Hov, Hd, Hl, Hlen, Hsv, Hhs, Hls, Htr, Hiv.
    pose proof (handleCharacterClick_found cid w (coh_found w Hh)) as Hfound.
    fold h in Hfound.
    pose proof (cons_time_active w Hc Ha) as Htime.
    pose proof (cons_level w Hc) as Hlevel.
    unfold active in Ha. apply andb_true_iff in Ha as [Hstw Hovw].
    apply negb_true_iff in Hovw.
    destruct (levelComplete h) eqn:Hlc.
    + rewrite (settle_won h Hlc). cbv zeta.
      unfold levelComplete in Hlc. apply andb_true_iff in Hlc as [_ Hall].
      rewrite (clearInterval_tracked (timerRef h) (intervals h))
        by (rewrite Htr, Hiv; apply Hc).
      split; unfold active; world_simpl; rewrite ?andb_false_r;
        try discriminate.
      * reflexivity.
      * intros _ _. split; [exact Hall | lia].
      * intros _ H0. lia.
      * exact Hfound.
      * rewrite Hhs, Hls.
        destruct (JS.gtb _ (highScore w));
          [apply readHighScore_insert | apply Hh].
      * intros H0. rewrite Hst, Hstw in H0. discriminate.
      * intros v _ _. rewrite Hhs. unfold JS.gtb.
        destruct (highScore w) as [|v0]; [discriminate|].
        destruct (v0 <? _) eqn:E.
        -- intros [= <-]. lia.
        -- intros [= <-]. apply Z.ltb_ge in E. exact E.
    + rewrite (settle_quiet h Hlc) by (rewrite Hov; exact Hovw).
      destruct Hh as [H1 H2 H3 H4 H5 H6 H7 H8].
      split; unfold active in *;
        rewrite ?Hsv, ?Hst, ?Hov, ?Hhs, ?Hls, ?Htr, ?Hiv, ?Hstw, ?Hovw in *;
        try assumption; try discriminate.
  - (* tick *)
    destruct (tick_running w t Hc Hen) as [Ha Htime].
    pose proof (settled_check w Hs) as Hchk.
    destruct Hh as [H1 H2 H3 H4 H5 H6 H7 H8].
    destruct (decide (timeLeft (gameState w) <= 1)) as [Hle|Hgt].
    + rewrite (dispatch_tick_last random w t Hc Hen Hle).
      split; unfold active; world_simpl; try assumption; try discriminate;
        try lia; try reflexivity.
      intros _ _. unfold levelComplete, active in *.
        apply andb_true_iff in Ha as [Hst Hov]. apply negb_true_iff in Hov.
        rewrite Hst, Hov in Hchk. exact Hchk.
    + rewrite (dispatch_tick_early random w t Hc Hs Hen ltac:(lia)).
      unfold active in *. apply andb_true_iff in Ha as [Hst Hov].
      apply negb_true_iff in Hov. rewrite Hst, Hov in *.
      split; unfold active; world_simpl; try assumption; try discriminate.
Qed.

Lemma init_coherent store : Coherent (init store).
Proof.
  unfold init.
  split; unfold active, GAME_DURATION; world_simpl; try discriminate;
    try reflexivity.
  - constructor.
  - intros _. repeat split.
Qed.

Lemma reachable_coherent store w : reachable random store w -> Coherent w.
Proof.
  induction 1 as [|w ev Hr IH Hen].
  - apply init_coherent.
  - destruct (reachable_consistent random store w Hr) as [Hc Hs].
    apply dispatch_coherent; assumption.
Qed.

End Coherence.

Lemma wonRound_reachable : reachable demoRandom ∅ wonRound.
Proof.
  apply reachable_step; [exact lastTarget_reachable | vm_compute; reflexivity].
Qed.

(** ** The high score over a session *)

Section HighScore.

Variable random : nat -> Q.

(** No handler touches the high score or the store. *)
Lemma handle_keeps_store w ev :
  highScore (handle random w ev) = highScore w
  /\ localStorage (handle random w ev) = localStorage w.
Proof.
  destruct ev as [| | |d|cid|t]; cbn [handle]; try (split; reflexivity).
  - destruct (handleCharacterClick_frame cid w)
      as (_ & _ & _ & _ & _ & _ & _ & Hhs & Hls & _).
    split; assumption.
  - unfold tick. destruct (timeLeft (gameState w) <=? 1); split; reflexivity.
Qed.

(** The effects write the store only for a completed level whose score
    beats the high score. *)
Lemma settle_store w :
  (levelComplete w = true
   /\ JS.gtb (score (gameState (settle w))) (highScore w) = true
   /\ highScore (settle w) = JS.Num (score (gameState (settle w)))
   /\ localStorage (settle w)
      = <[highScoreKey := JS.toString (score (gameState (settle w)))]>
          (localStorage w))
  \/ (highScore (settle w) = highScore w
      /\ localStorage (settle w) = localStorage w).
Proof.
  destruct (levelComplete w) eqn:Hc.
  - rewrite (settle_won w Hc). cbv zeta. world_simpl.
    destruct (JS.gtb _ (highScore w)) eqn:E.
    + left. repeat split.
    + right. split; reflexivity.
  - right. destruct (gameOver (gameState w)) eqn:Ho.
    + rewrite (settle_over w Ho). split; reflexivity.
    + rewrite (settle_quiet w Hc Ho). split; reflexivity.
Qed.



(** X4: the component writes one key only: every other entry of the store
    is the same after any event, from any world. *)
Theorem other_keys_untouched w ev k :
  k <> highScoreKey ->
  localStorage (dispatch random w ev) !! k = localStorage w !! k.
Proof.
  intros Hk. unfold dispatch.
  destruct (handle_keeps_store w ev) as [_ Hls].
  destruct (settle_store (handle random w ev))
    as [(_ & _ & _ & Hnew) | (_ & Hsame)].
  - rewrite Hnew, lookup_insert_ne by congruence. rewrite Hls. reflexivity.
  - rewrite Hsame, Hls. reflexivity.
Qed.

End HighScore.



(** Witness of [other_keys_untouched]: an entry of another application. *)
Lemma other_keys_untouched_witness :
  localStorage (dispatch demoRandom
                  (mkWorld (mkGameState 200 45 true false easy 1)
                     (characters lastTarget) true (JS.Num 0)
                     {["theme" := "dark"]} (Some 0%nat) {[0%nat]} 1%nat 60%nat)
                  (CharacterClick "goofy-2")) !! "theme"
  = ({["theme" := "dark"]} : gmap string string) !! "theme".
Proof. apply other_keys_untouched. discriminate. Defined.

(** ** How a round ends *)

(** The completion check in terms of the HUD's count: some character
    exists and no target remains. *)
Lemma allGoofysFound_remaining cs :
  allGoofysFound cs = true <-> cs <> [] /\ remaining cs = [].
Proof.
  unfold allGoofysFound. rewrite andb_true_iff, Nat.ltb_lt.
  assert (Hr : forallb Character.isFound (List.filter Character.isGoofy cs) = true
               <-> remaining cs = []).
  { unfold remaining. induction cs as [|c cs IH]; cbn; [tauto|].
    destruct (Character.isGoofy c) eqn:Hg, (Character.isFound c) eqn:Hf;
      cbn; rewrite ?Hg, ?Hf; cbn; rewrite ?IH; try tauto.
    split; intros; discriminate. }
  rewrite Hr. destruct cs; cbn; split; intros [H1 H2]; split;
    try assumption; try lia; try congruence.
Qed.

(** While nothing is found, every target remains. *)
Lemma remaining_unfound cs :
  Forall (fun c => Character.isFound c = false) cs -> remaining cs = targets cs.
Proof.
  unfold remaining, targets. induction 1 as [|c l Hf _ IH]; [reflexivity|].
  cbn. rewrite Hf. destruct (Character.isGoofy c); cbn; rewrite IH; reflexivity.
Qed.

Section Outcome.

Variable random : nat -> Q.
Variable store : gmap string string.

(** Events delivered by [dispatch], each with nothing waiting: a finished
    round is either lost or won, and the time left tells which.  Either
    the time left is 0, a target remains unfound and only a reset is
    offered, or the time left is positive, no target remains, the level
    counter is already that of the next round (at least 2) and next-level
    is offered; a reset is offered in both cases.  A click that overtakes
    the render of the last tick can end a round with no time left and no
    target remaining. *)
Lemma round_outcome w :
  reachable random store w -> gameOver (gameState w) = true ->
  enabled w ResetGame = true
  /\ ((timeLeft (gameState w) = 0 /\ remaining (characters w) <> []
       /\ enabled w NextLevel = false)
      \/ (0 < timeLeft (gameState w) /\ remaining (characters w) = []
          /\ 2 <= level (gameState w) /\ enabled w NextLevel = true)).
Proof.
  intros Hr Ho. destruct (reachable_consistent random store w Hr) as [Hc _].
  pose proof (reachable_coherent random store w Hr) as Hh.
  pose proof (cons_over_started w Hc Ho) as Hst.
  pose proof (cons_time w Hc) as [Ht0 _].
  split; [cbn [enabled]; rewrite Hst, Ho; reflexivity|].
  destruct (decide (timeLeft (gameState w) = 0)) as [Hz|Hnz].
  - left. split; [exact Hz|]. split.
    + intros Hrem. pose proof (coh_lost w Hh Ho Hz) as Hlost.
      assert (allGoofysFound (characters w) = true) as Hall
        by (apply allGoofysFound_remaining; split; [apply Hc, Hst | exact Hrem]).
      congruence.
    + cbn [enabled]. rewrite Hz. apply andb_false_r.
  - right. assert (Hpos : 0 < timeLeft (gameState w)) by lia.
    destruct (coh_won w Hh Ho Hpos) as [Hall Hlv].
    apply allGoofysFound_remaining in Hall as [_ Hrem].
    split; [exact Hpos|]. split; [exact Hrem|]. split; [exact Hlv|].
    cbn [enabled]. rewrite Hst, Ho. cbn. apply Z.ltb_lt, Hpos.
Qed.



(** X8: a session's first round is always level 1.  In every reachable
    world with no round started, the game state is the initial one up to
    the difficulty and there are no characters; so [startGame] gives a
    round at level 1 with score 0 and 60 seconds, whose characters and
    targets are exactly the tier's base counts. *)
Theorem first_round_is_level_one w :
  reachable random store w -> gameStarted (gameState w) = false ->
  let d := difficulty (gameState w) in
  let w' := dispatch random w StartGame in
  gameState w = mkGameState 0 60 false false d 1
  /\ characters w = []
  /\ enabled w StartGame = true
  /\ gameState w' = mkGameState 0 60 true false d 1
  /\ Z.of_nat (length (characters w')) = totalCharacters (DIFFICULTIES d)
  /\ Z.of_nat (length (remaining (characters w'))) = goofyCount (DIFFICULTIES d).
Proof.
  intros Hr Hst d w'.
  destruct (reachable_consistent random store w Hr) as [Hc _].
  pose proof (reachable_coherent random store w Hr) as Hh.
  destruct (coh_idle w Hh Hst) as (Hcs & Hsc & Hlv & Htl).
  assert (Hov : gameOver (gameState w) = false).
  { destruct (gameOver (gameState w)) eqn:Ho; [|reflexivity].
    rewrite (cons_over_started w Hc Ho) in Hst. discriminate. }
  assert (Hg : gameState w = mkGameState 0 60 false false d 1).
  { subst d. destruct (gameState w); cbn in *. unfold GAME_DURATION in *.
    congruence. }
  split; [exact Hg|]. split; [exact Hcs|].
  split; [cbn [enabled]; rewrite Hst; reflexivity|].
  subst w'. rewrite (dispatch_start random w Hc). unfold startRound.
  world_simpl. rewrite Hsc, Hlv. fold d.
  destruct (generate_counts random d 1 (draws w)) as (Hlen & Htg & Hnf).
  cbv zeta in Hlen, Htg, Hnf.
  set (cs := fst (generateCharacters random d 1 (draws w))) in *.
  pose proof (remaining_unfound cs Hnf) as Hrem.
  split; [reflexivity|]. rewrite Hrem, Hlen, Htg.
  destruct d; cbn; split; reflexivity.
Qed.

End Outcome.

(** Witness of [round_outcome]: the round that timed out. *)
Lemma round_outcome_witness :
  enabled timedOut ResetGame = true
  /\ ((timeLeft (gameState timedOut) = 0 /\ remaining (characters timedOut) <> []
       /\ enabled timedOut NextLevel = false)
      \/ (0 < timeLeft (gameState timedOut)
          /\ remaining (characters timedOut) = []
          /\ 2 <= level (gameState timedOut)
          /\ enabled timedOut NextLevel = true)).
Proof.
  apply (round_outcome demoRandom ∅ timedOut timedOut_reachable).
  rewrite timedOut_state. reflexivity.
Defined.



(** Witness of [first_round_is_level_one]: the component just mounted. *)
Lemma first_round_is_level_one_witness :
  gameState (dispatch demoRandom (init ∅) StartGame)
  = mkGameState 0 60 true false medium 1
  /\ Z.of_nat (length (characters (dispatch demoRandom (init ∅) StartGame))) = 40.
Proof.
  destruct (first_round_is_level_one demoRandom ∅ (init ∅)
              (reachable_init _ _) eq_refl) as (_ & _ & _ & Hg & Hn & _).
  split; [exact Hg | exact Hn].
Defined.

(** ** The countdown *)

Section Countdown.

Variable random : nat -> Q.
Variable store : gmap string string.

Lemma active_inv w :
  active w = true ->
  gameStarted (gameState w) = true /\ gameOver (gameState w) = false.
Proof.
  unfold active. intros H. apply andb_true_iff in H as [H1 H2].
  apply negb_true_iff in H2. split; assumption.
Qed.

(** X9: a round in which no target is clicked lasts exactly as many ticks
    as it has seconds left.  From a reachable running round with interval
    [t], delivering [k] ticks with [k] below the time left only takes [k]
    seconds off; delivering as many ticks as there are seconds left ends
    the round at 0 with the scope hidden and the interval cancelled; score,
    level, characters, high score and store are untouched throughout. *)
Theorem ticks_count_down (k : nat) : forall w t,
  reachable random store w -> active w = true -> timerRef w = Some t ->
  let g := gameState w in
  (Z.of_nat k < timeLeft g ->
   run random w (replicate k (IntervalTick t))
   = Some (mkWorld
             (mkGameState (score g) (timeLeft g - Z.of_nat k) true false
                (difficulty g) (level g))
             (characters w) (scopeVisible w) (highScore w) (localStorage w)
             (timerRef w) (intervals w) (nextInterval w) (draws w)))
  /\ (Z.of_nat k = timeLeft g ->
      run random w (replicate k (IntervalTick t))
      = Some (mkWorld
                (mkGameState (score g) 0 true true (difficulty g) (level g))
                (characters w) false (highScore w) (localStorage w)
                (timerRef w) ∅ (nextInterval w) (draws w))).
Proof.
  induction k as [|k IH]; intros w t Hr Ha Htr g.
  - destruct (reachable_consistent random store w Hr) as [Hc _].
    pose proof (cons_time_active w Hc Ha) as Htime.
    destruct (active_inv w Ha) as [Hst Hov].
    split; [|intros H0; subst g; cbn in H0; lia].
    intros _. cbn [replicate run]. f_equal. subst g.
    destruct w as [[sc tl st ov df lv] cs sv hs ls tr iv ni dr].
    world_simpl. subst. rewrite Z.sub_0_r. reflexivity.
  - destruct (reachable_consistent random store w Hr) as [Hc Hs].
    pose proof (reachable_coherent random store w Hr) as Hh.
    destruct (coh_timer w Hh Ha) as (t' & Htr' & Hiv).
    assert (t' = t) as -> by congruence.
    assert (Hen : enabled w (IntervalTick t) = true).
    { cbn [enabled]. rewrite Hiv. apply bool_decide_eq_true, elem_of_singleton.
      reflexivity. }
    pose proof (cons_time_active w Hc Ha) as Htime.
    cbn [replicate run]. rewrite Hen.
    destruct (decide (timeLeft (gameState w) <= 1)) as [Hle|Hgt].
    + rewrite (dispatch_tick_last random w t Hc Hen Hle).
      split; [intros Hlt; subst g; lia|].
      intros Heq. assert (k = 0%nat) as -> by (subst g; lia).
      reflexivity.
    + assert (Hlt : 1 < timeLeft (gameState w)) by lia.
      pose proof (dispatch_tick_early random w t Hc Hs Hen Hlt) as Hd.
      assert (Hr1 : reachable random store (dispatch random w (IntervalTick t)))
        by (apply reachable_step; assumption).
      destruct (IH (dispatch random w (IntervalTick t)) t Hr1) as [IH1 IH2].
      { rewrite Hd. reflexivity. }
      { rewrite Hd. exact Htr. }
      rewrite Hd in IH1, IH2. cbv zeta in IH1, IH2. world_simpl.
      subst g. split; intros Hk.
      * rewrite Hd, IH1 by lia. do 3 f_equal. lia.
      * rewrite Hd, IH2 by lia. reflexivity.
Qed.

End Countdown.

(** Witness of [ticks_count_down]: fifteen ticks of the round just started,
    and all sixty. *)
Lemma ticks_count_down_witness :
  option_map (fun w => timeLeft (gameState w))
    (run demoRandom demoStarted (replicate 15 (IntervalTick 0))) = Some 45
  /\ option_map (fun w => (gameState w, intervals w))
       (run demoRandom demoStarted (replicate 60 (IntervalTick 0)))
     = Some (mkGameState 0 0 true true easy 1, ∅).
Proof.
  split.
  - destruct (ticks_count_down demoRandom ∅ 15 demoStarted 0
                demoStarted_reachable ltac:(vm_compute; reflexivity)
                ltac:(vm_compute; reflexivity)) as [H _].
    rewrite H by (vm_compute; reflexivity). vm_compute. reflexivity.
  - destruct (ticks_count_down demoRandom ∅ 60 demoStarted 0
                demoStarted_reachable ltac:(vm_compute; reflexivity)
                ltac:(vm_compute; reflexivity)) as [_ H].
    rewrite H by (vm_compute; reflexivity). vm_compute. reflexivity.
Defined.

(** ** The characters during a round *)

Lemma settle_characters w : characters (settle w) = characters w.
Proof.
  destruct (levelComplete w) eqn:Hc.
  - rewrite (settle_won w Hc). reflexivity.
  - destruct (gameOver (gameState w)) eqn:Ho.
    + rewrite (settle_over w Ho). reflexivity.
    + rewrite (settle_quiet w Hc Ho). reflexivity.
Qed.

Lemma mapClick_pointwise cid cs : forall g,
  Forall2
    (fun c c' =>
       Character.id c' = Character.id c /\ Character.x c' = Character.x c
       /\ Character.y c' = Character.y c
       /\ Character.isGoofy c' = Character.isGoofy c
       /\ Character.emoji c' = Character.emoji c
       /\ (Character.isFound c' = Character.isFound c
           \/ (Character.isFound c = false /\ Character.isFound c' = true
               /\ Character.isGoofy c = true /\ Character.id c = cid)))
    cs (fst (mapClick cid cs g)).
Proof.
  induction cs as [|c cs IH]; intros g; cbn [mapClick]; cbv zeta; cbn [fst];
    constructor; [|apply IH].
  unfold clickOne.
  destruct (String.eqb (Character.id c) cid) eqn:E; cbn [andb];
    [|repeat split; left; reflexivity].
  apply String.eqb_eq in E.
  destruct (Character.isFound c) eqn:Hf; cbn [negb];
    [cbn; rewrite ?Hf; repeat split; left; reflexivity|].
  destruct (Character.isGoofy c) eqn:Hg; cbn [fst].
  - cbn. rewrite ?Hg. repeat split. right. repeat split; assumption.
  - rewrite ?Hf, ?Hg. repeat split. left. reflexivity.
Qed.

Section Characters.

Variable random : nat -> Q.

(** X10: during a round the characters are fixed and only found flags of
    targets flip.  A click keeps every character's id, position, kind and
    emoji, in the same order; a found flag either stays or goes from false
    to true, and the latter only for the target carrying the clicked id.
    Ticks and the difficulty selector leave the characters as they are.
    In every reachable world each found character is a target. *)
Theorem only_target_flags_flip :
  (forall w characterId,
      Forall2
        (fun c c' =>
           Character.id c' = Character.id c /\ Character.x c' = Character.x c
           /\ Character.y c' = Character.y c
           /\ Character.isGoofy c' = Character.isGoofy c
           /\ Character.emoji c' = Character.emoji c
           /\ (Character.isFound c' = Character.isFound c
               \/ (Character.isFound c = false /\ Character.isFound c' = true
                   /\ Character.isGoofy c = true
                   /\ Character.id c = characterId)))
        (characters w)
        (characters (dispatch random w (CharacterClick characterId))))
  /\ (forall w t,
        characters (dispatch random w (IntervalTick t)) = characters w)
  /\ (forall w d,
        characters (dispatch random w (SelectDifficulty d)) = characters w)
  /\ (forall store w,
        reachable random store w ->
        Forall (fun c => Character.isFound c = true -> Character.isGoofy c = true)
          (characters w)).
Proof.
  split; [|split; [|split]].
  - intros w cid. unfold dispatch, handle. rewrite settle_characters.
    unfold handleCharacterClick.
    destruct (negb (gameStarted (gameState w)) || gameOver (gameState w)).
    + apply Forall2_same_length_lookup. split; [reflexivity|].
      intros i c c' H1 H2. assert (c' = c) as -> by congruence.
      repeat split. left. reflexivity.
    + world_simpl. apply mapClick_pointwise.
  - intros w t. unfold dispatch, handle. rewrite settle_characters.
    unfold tick. destruct (timeLeft (gameState w) <=? 1); reflexivity.
  - intros w d. unfold dispatch, handle. rewrite settle_characters. reflexivity.
  - intros store w Hr. apply (coh_found w (reachable_coherent random store w Hr)).
Qed.

End Characters.

(** Witness of [only_target_flags_flip]: no bystander of the won round is
    marked found. *)
Lemma only_target_flags_flip_witness :
  Forall (fun c => Character.isFound c = true -> Character.isGoofy c = true)
    (characters wonRound).
Proof.
  exact (proj2 (proj2 (proj2 (only_target_flags_flip demoRandom)))
           ∅ wonRound wonRound_reachable).
Defined.

(** ** Finding every target *)

Lemma remaining_app cs1 cs2 :
  remaining (cs1 ++ cs2) = remaining cs1 ++ remaining cs2.
Proof. apply List.filter_app. Qed.

Lemma elem_of_remaining c cs :
  c ∈ remaining cs ->
  c ∈ cs /\ Character.isGoofy c = true /\ Character.isFound c = false.
Proof.
  unfold remaining. rewrite !list_elem_of_In, List.filter_In.
  intros [Hin Hb]. apply andb_true_iff in Hb as [Hg Hf].
  apply negb_true_iff in Hf. auto.
Qed.

Section FindAll.

Variable random : nat -> Q.
Variable store : gmap string string.

(** The click on a target that is still to find, in a reachable running
    round: the handler's world, and what remains afterwards. *)
Lemma click_remaining w c :
  reachable random store w -> active w = true -> c ∈ remaining (characters w) ->
  let h := handleCharacterClick (Character.id c) w in
  enabled w (CharacterClick (Character.id c)) = true
  /\ gameState h
     = setScore (score (gameState w) + 100 * level (gameState w)) (gameState w)
  /\ characters h <> []
  /\ Character.id <$> remaining (characters w)
     ≡ₚ Character.id c :: (Character.id <$> remaining (characters h)).
Proof.
  intros Hr Ha Hin h.
  destruct (reachable_consistent random store w Hr) as [Hc _].
  apply elem_of_remaining in Hin as (Hin & Hg & Hf).
  apply list_elem_of_split in Hin as (cs1 & cs2 & Hcs).
  pose proof (cons_ids w Hc) as Hids. rewrite Hcs in Hids.
  apply unique_id in Hids as [H1 H2].
  pose proof (handleCharacterClick_unique w cs1 c cs2 Ha Hcs H1 H2) as Hclick.
  cbv zeta in Hclick. rewrite Hf, Hg in Hclick. destruct Hclick as [Hgs Hch].
  fold h in Hgs, Hch.
  split; [|split; [exact Hgs|split]].
  - cbn [enabled]. apply existsb_exists. exists c. split.
    + rewrite Hcs. apply in_or_app. right. left. reflexivity.
    + rewrite String.eqb_refl, Hf. reflexivity.
  - rewrite Hch. destruct cs1; discriminate.
  - rewrite Hch, Hcs, !remaining_app.
    change (cs1 ++ c :: cs2) with (cs1 ++ [c] ++ cs2) in *.
    cbn [app]. unfold remaining at 2 4. cbn [List.filter Character.markFound
      Character.isGoofy Character.isFound]. rewrite Hg, Hf. cbn [andb negb].
    fold (remaining cs2). rewrite !fmap_app, fmap_cons.
    symmetry. apply Permutation_middle.
Qed.

(** Clicking every remaining target once, in any order, each click
    delivered by [dispatch]: the round ends over with the time left
    unchanged, with [100 * level] per click plus [10 * timeLeft] added to
    the score, the level incremented, no target remaining and the interval
    cancelled. *)
Lemma clicks_find_every_target (ids : list string) : forall w,
  reachable random store w -> active w = true ->
  ids ≡ₚ (Character.id <$> remaining (characters w)) ->
  let g := gameState w in
  let w' := clicks random w ids in
  gameState w'
  = mkGameState
      (score g + 100 * level g * Z.of_nat (length ids) + 10 * timeLeft g)
      (timeLeft g) true true (difficulty g) (level g + 1)
  /\ remaining (characters w') = []
  /\ intervals w' = ∅.
Proof.
  induction ids as [|cid rest IH]; intros w Hr Ha Hperm g w'.
  - destruct (reachable_consistent random store w Hr) as [Hc Hs].
    destruct (active_inv w Ha) as [Hst Hov].
    apply Permutation_nil_l in Hperm. symmetry in Hperm.
    apply fmap_nil_inv in Hperm.
    assert (allGoofysFound (characters w) = true) as Hall
      by (apply allGoofysFound_remaining; split; [apply Hc, Hst | exact Hperm]).
    pose proof (settled_check w Hs) as Hchk. unfold levelComplete in Hchk.
    rewrite Hst, Hov, Hall in Hchk. discriminate.
  - assert (Hin : cid ∈ Character.id <$> remaining (characters w)).
    { rewrite <- Hperm. left. }
    apply list_elem_of_fmap in Hin as (c & -> & Hin).
    destruct (click_remaining w c Hr Ha Hin) as (Hen & Hgs & Hne & Hp).
    cbv zeta in Hgs, Hp.
    set (h := handleCharacterClick (Character.id c) w) in *.
    assert (Hrest : rest ≡ₚ Character.id <$> remaining (characters h)).
    { apply (Permutation_cons_inv (a := Character.id c)).
      rewrite Hperm. exact Hp. }
    assert (Hr1 : reachable random store
                    (dispatch random w (CharacterClick (Character.id c))))
      by (apply reachable_step; assumption).
    destruct (active_inv w Ha) as [Hst Hov].
    assert (Hflags : gameStarted (gameState h) = true
                     /\ gameOver (gameState h) = false).
    { rewrite Hgs. split; assumption. }
    destruct Hflags as [Hsth Hovh].
    subst w'. unfold clicks. cbn [fold_left].
    fold (clicks random (dispatch random w (CharacterClick (Character.id c))) rest).
    unfold dispatch, handle in *. fold h in Hr1 |- *.
    destruct rest as [|cid2 rest].
    + apply Permutation_nil_l in Hrest. symmetry in Hrest.
      apply fmap_nil_inv in Hrest.
      assert (Hlc : levelComplete h = true).
      { unfold levelComplete. rewrite Hsth, Hovh. cbn [negb orb andb].
        apply allGoofysFound_remaining. split; assumption. }
      unfold clicks. cbn [fold_left].
      destruct (reachable_consistent random store _ Hr1) as [Hc1 _].
      split; [|split].
      * rewrite (settle_won h Hlc). cbv zeta. world_simpl. rewrite Hgs.
        subst g. unfold setScore. world_simpl. rewrite Hst.
        f_equal. cbn [length]. lia.
      * rewrite settle_characters. exact Hrest.
      * apply idle_no_interval; [exact Hc1|].
        rewrite (settle_won h Hlc). unfold active. world_simpl.
        apply andb_false_r.
    + assert (Hlc : levelComplete h = false).
      { destruct (levelComplete h) eqn:E; [|reflexivity].
        unfold levelComplete in E. apply andb_true_iff in E as [_ E].
        apply allGoofysFound_remaining in E as [_ E].
        rewrite E in Hrest. apply Permutation_nil_r in Hrest. discriminate. }
      rewrite (settle_quiet h Hlc Hovh) in Hr1 |- *.
      destruct (IH h Hr1) as (Hg' & Hrem' & Hiv').
      { unfold active. rewrite Hsth, Hovh. reflexivity. }
      { exact Hrest. }
      cbv zeta in Hg'. split; [|split; assumption].
      rewrite Hg', Hgs. subst g. unfold setScore. world_simpl.
      f_equal. cbn [length]. rewrite !Nat2Z.inj_succ. ring.
Qed.

End FindAll.

(** ** Clicking a bystander *)

Lemma handleCharacterClick_active cid w :
  active w = true ->
  handleCharacterClick cid w
  = mkWorld (snd (mapClick cid (characters w) (gameState w)))
      (fst (mapClick cid (characters w) (gameState w)))
      (scopeVisible w) (highScore w) (localStorage w)
      (timerRef w) (intervals w) (nextInterval w) (draws w).
Proof.
  intros Ha. destruct (active_inv w Ha) as [Hst Hov].
  unfold handleCharacterClick. rewrite Hst, Hov. reflexivity.
Qed.

Section Bystander.

Variable random : nat -> Q.
Variable store : gmap string string.

(** One click on a bystander in a reachable running round: only the score
    changes. *)
Lemma dispatch_bystander w c :
  reachable random store w -> active w = true ->
  c ∈ characters w -> Character.isGoofy c = false ->
  enabled w (CharacterClick (Character.id c)) = true
  /\ dispatch random w (CharacterClick (Character.id c))
     = mkWorld (setScore (Z.max 0 (score (gameState w) - 25)) (gameState w))
         (characters w) (scopeVisible w) (highScore w) (localStorage w)
         (timerRef w) (intervals w) (nextInterval w) (draws w).
Proof.
  intros Hr Ha Hin Hg.
  destruct (reachable_consistent random store w Hr) as [Hc Hs].
  pose proof (reachable_coherent random store w Hr) as Hh.
  assert (Hf : Character.isFound c = false).
  { pose proof (coh_found w Hh) as Hall. rewrite Forall_forall in Hall.
    specialize (Hall c Hin). destruct (Character.isFound c); [|reflexivity].
    rewrite Hall in Hg by reflexivity. discriminate. }
  pose proof Hin as Hin'. apply list_elem_of_split in Hin' as (cs1 & cs2 & Hcs).
  pose proof (cons_ids w Hc) as Hids. rewrite Hcs in Hids.
  apply unique_id in Hids as [H1 H2].
  pose proof (handleCharacterClick_unique w cs1 c cs2 Ha Hcs H1 H2) as Hclick.
  cbv zeta in Hclick. rewrite Hf, Hg in Hclick.
  destruct Hclick as (Hgs & Hch & _).
  split.
  - cbn [enabled]. apply existsb_exists. exists c. split.
    + apply list_elem_of_In, Hin.
    + rewrite String.eqb_refl, Hf. reflexivity.
  - unfold dispatch, handle.
    rewrite (handleCharacterClick_active _ w Ha) in Hgs, Hch |- *.
    world_simpl. rewrite Hgs, Hch.
    destruct (active_inv w Ha) as [Hst Hov].
    apply settle_quiet.
    + pose proof (settled_check w Hs) as Hchk.
      unfold levelComplete, setScore in *. world_simpl. exact Hchk.
    + unfold setScore. world_simpl. exact Hov.
Qed.

(** Clicking a bystander [n] times, each click delivered by [dispatch]:
    the world stays as it is except for the score, which becomes
    [max(0, score - 25 * n)]. *)
Lemma clicks_on_bystander (n : nat) : forall w c,
  reachable random store w -> active w = true ->
  c ∈ characters w -> Character.isGoofy c = false ->
  clicks random w (replicate n (Character.id c))
  = mkWorld
      (setScore (Z.max 0 (score (gameState w) - 25 * Z.of_nat n)) (gameState w))
      (characters w) (scopeVisible w) (highScore w) (localStorage w)
      (timerRef w) (intervals w) (nextInterval w) (draws w).
Proof.
  induction n as [|n IH]; intros w c Hr Ha Hin Hg.
  - destruct (reachable_consistent random store w Hr) as [Hc _].
    pose proof (cons_score w Hc) as Hsc.
    unfold clicks. cbn [replicate fold_left]. unfold setScore.
    replace (Z.max 0 (score (gameState w) - 25 * Z.of_nat 0))
      with (score (gameState w)) by lia.
    destruct w as [[sc tl st ov df lv] cs sv hs ls tr iv ni dr]. reflexivity.
  - destruct (dispatch_bystander w c Hr Ha Hin Hg) as [Hen Hd].
    assert (Hr1 : reachable random store
                    (dispatch random w (CharacterClick (Character.id c))))
      by (apply reachable_step; assumption).
    unfold clicks. cbn [replicate fold_left].
    fold (clicks random (dispatch random w (CharacterClick (Character.id c)))
            (replicate n (Character.id c))).
    rewrite (IH _ c Hr1).
    + rewrite Hd. unfold setScore. world_simpl. do 2 f_equal. lia.
    + rewrite Hd. destruct (active_inv w Ha) as [Hst Hov].
      unfold active, setScore. world_simpl. rewrite Hst, Hov. reflexivity.
    + rewrite Hd. exact Hin.
    + exact Hg.
Qed.

End Bystander.

(** ** Updates that wait for a render *)

(** *** The effects of a commit *)

Lemma pageEffects_quiet p :
  levelComplete (shown p) = false ->
  gameOver (gameState (shown p)) = false ->
  pageEffects p = p.
Proof.
  destruct p as [[g cs sv hs ls tr iv ni dr] b q ph ps].
  cbn [shown gameState]. intros Hlc Hov.
  unfold pageEffects. cbn [shown gameState]. rewrite Hlc, Hov. reflexivity.
Qed.

Lemma pageEffects_won p :
  levelComplete (shown p) = true ->
  let s := shown p in
  let g := gameState s in
  let newScore := score g + timeLeft g * 10 in
  pageEffects p =
  mkPage
    (mkWorld g (characters s) (scopeVisible s) (highScore s)
       (if JS.gtb newScore (highScore s)
        then <[highScoreKey := JS.toString newScore]> (localStorage s)
        else localStorage s)
       (timerRef s) (clearInterval (timerRef s) (intervals s))
       (nextInterval s) (draws s))
    (baseState p)
    (pending p ++ [Won newScore])
    (if JS.gtb newScore (highScore s) then Some newScore
     else pendingHighScore p)
    (pendingScope p).
Proof.
  destruct p as [[g cs sv hs ls tr iv ni dr] b q ph ps].
  cbn [shown gameState]. intros Hlc.
  assert (Hov : gameOver g = false).
  { unfold levelComplete in Hlc. cbn [gameState] in Hlc.
    apply andb_true_iff in Hlc as [Hlc _].
    destruct (gameStarted g), (gameOver g); cbn in Hlc; congruence. }
  unfold pageEffects. cbn [shown gameState]. rewrite Hlc, Hov. reflexivity.
Qed.

Lemma pageEffects_over p :
  gameOver (gameState (shown p)) = true ->
  let s := shown p in
  pageEffects p =
  mkPage
    (mkWorld (gameState s) (characters s) (scopeVisible s) (highScore s)
       (localStorage s) (timerRef s)
       (clearInterval (timerRef s) (intervals s))
       (nextInterval s) (draws s))
    (baseState p) (pending p) (pendingHighScore p)
    (if scopeVisible s then Some false else pendingScope p).
Proof.
  destruct p as [[g cs sv hs ls tr iv ni dr] b q ph ps].
  cbn [shown gameState]. intros Hov.
  assert (Hlc : levelComplete (mkWorld g cs sv hs ls tr iv ni dr) = false).
  { unfold levelComplete. cbn [gameState]. rewrite Hov, orb_true_r.
    reflexivity. }
  unfold pageEffects. cbn [shown gameState]. rewrite Hlc, Hov. reflexivity.
Qed.

Lemma pageRender_quiet w : pageRender (quiet w) = quiet w.
Proof. reflexivity. Qed.

Lemma pageSettle_quiet w : pageSettle (quiet w) = quiet w.
Proof. reflexivity. Qed.

(** *** Agreement with [dispatch] when nothing waits

    The renders that follow a commit on a page on which nothing waited
    end in the world [settle] computes. *)
Lemma pageSettle_effects h :
  pageSettle (pageEffects (quiet h)) = quiet (settle h).
Proof.
  destruct (levelComplete h) eqn:Hlc.
  - rewrite (pageEffects_won (quiet h) Hlc), (settle_won h Hlc). cbv zeta.
    destruct h as [g cs sv hs ls tr iv ni dr]. unfold quiet. page_simpl.
    set (ns := score g + timeLeft g * 10).
    unfold pageSettle.
    unfold pageRender at 2. cbn [idle pending app]. page_simpl.
    cbn [fold_left applyUpdate fst snd default].
    rewrite pageEffects_over by reflexivity. cbv zeta. page_simpl.
    rewrite clearInterval_idem.
    destruct sv.
    + unfold pageRender. cbn [idle pending pendingHighScore pendingScope].
      page_simpl. cbn [fold_left fst snd default].
      rewrite pageEffects_over by reflexivity. cbv zeta. page_simpl.
      rewrite clearInterval_idem.
      destruct (JS.gtb ns hs); reflexivity.
    + unfold pageRender. cbn [idle pending pendingHighScore pendingScope].
      destruct (JS.gtb ns hs); reflexivity.
  - destruct (gameOver (gameState h)) eqn:Hov.
    + rewrite (pageEffects_over (quiet h) Hov), (settle_over h Hov). cbv zeta.
      destruct h as [g cs sv hs ls tr iv ni dr]. unfold quiet. page_simpl.
      unfold pageSettle. destruct sv.
      * unfold pageRender at 2.
        cbn [idle pending pendingHighScore pendingScope]. page_simpl.
        cbn [fold_left fst snd default].
        rewrite pageEffects_over by exact Hov. cbv zeta. page_simpl.
        rewrite clearInterval_idem. reflexivity.
      * reflexivity.
    + rewrite (pageEffects_quiet (quiet h) Hlc Hov), (settle_quiet h Hlc Hov).
      reflexivity.
Qed.

(** *** A click that overtakes a tick *)

(** C6: a click on a target that was not yet found can add nothing to the
    score.  The first round has just started, with score 0 and 60 seconds;
    the interval fires, and before its update is rendered the target
    [goofy-0] is clicked.  The render of the click shows 100 points, but
    the score update is made inside the [setCharacters] updater while the
    update of the tick waits, and it is not kept: once the tick is
    rendered the score is 0 again, 59 seconds are left and [goofy-0] is
    found.  Delivered with nothing waiting, the same click is worth 100
    points.  In the same way a wrong click behind a tick costs nothing:
    from 200 points it leaves 200. *)
Theorem queued_tick_drops_points :
  gameState demoStarted = mkGameState 0 60 true false easy 1
  /\ enabled demoStarted (IntervalTick 0) = true
  /\ enabled (shown (pageFire (quiet demoStarted))) (CharacterClick "goofy-0")
     = true
  /\ score (gameState
              (shown (pageClick "goofy-0" (pageFire (quiet demoStarted)))))
     = 100
  /\ gameState (shown (clickBehindTick demoStarted "goofy-0"))
     = mkGameState 0 59 true false easy 1
  /\ Character.isFound
       <$> targets (characters (shown (clickBehindTick demoStarted "goofy-0")))
     = [true; false; false]
  /\ idle (clickBehindTick demoStarted "goofy-0") = true
  /\ score (gameState
              (dispatch demoRandom demoStarted (CharacterClick "goofy-0")))
     = 100
  /\ gameState twoFoundAt46 = mkGameState 200 46 true false easy 1
  /\ enabled (shown (pageFire (quiet twoFoundAt46))) (CharacterClick "char-0")
     = true
  /\ gameState (shown (clickBehindTick twoFoundAt46 "char-0"))
     = mkGameState 200 45 true false easy 1
  /\ score (gameState
              (dispatch demoRandom twoFoundAt46 (CharacterClick "char-0")))
     = 175.
Proof.
  split; [vm_compute; reflexivity|].
  split; [vm_compute; reflexivity|].
  split; [vm_compute; reflexivity|].
  split; [vm_compute; reflexivity|].
  split; [vm_compute; reflexivity|].
  split; [vm_compute; reflexivity|].
  split; [vm_compute; reflexivity|].
  split; [vm_compute; reflexivity|].
  split; [vm_compute; reflexivity|].
  split; [vm_compute; reflexivity|].
  split; vm_compute; reflexivity.
Qed.

(** C5: the bonus of a won round can differ from ten times the seconds
    left.  Easy tier, level 1, two targets found, 200 points and 46
    seconds; the interval fires, and before its update is rendered the
    last target is clicked.  The level-completion effect of the click's
    render reads 300 points and 46 seconds and queues the score 760;
    the tick is rendered first, so the round ends won with 45 seconds on
    the clock and 760 points, which is also stored as the high score.
    Had the tick been rendered before the click, the round would have
    ended with 45 seconds and 750 points. *)
Theorem queued_tick_inflates_bonus :
  gameState twoFoundAt46 = mkGameState 200 46 true false easy 1
  /\ enabled twoFoundAt46 (IntervalTick 0) = true
  /\ enabled (shown (pageFire (quiet twoFoundAt46))) (CharacterClick "goofy-2")
     = true
  /\ pending (pageClick "goofy-2" (pageFire (quiet twoFoundAt46)))
     = [Ticked (mkGameState 200 45 true false easy 1); Won 760]
  /\ gameState (shown (clickBehindTick twoFoundAt46 "goofy-2"))
     = mkGameState 760 45 true true easy 2
  /\ remaining (characters (shown (clickBehindTick twoFoundAt46 "goofy-2")))
     = []
  /\ highScore (shown (clickBehindTick twoFoundAt46 "goofy-2")) = JS.Num 760
  /\ localStorage (shown (clickBehindTick twoFoundAt46 "goofy-2"))
       !! highScoreKey
     = Some "760"
  /\ idle (clickBehindTick twoFoundAt46 "goofy-2") = true
  /\ gameState
       (dispatch demoRandom
          (dispatch demoRandom twoFoundAt46 (IntervalTick 0))
          (CharacterClick "goofy-2"))
     = mkGameState 750 45 true true easy 2.
Proof.
  split; [vm_compute; reflexivity|].
  split; [vm_compute; reflexivity|].
  split; [vm_compute; reflexivity|].
  split; [vm_compute; reflexivity|].
  split; [vm_compute; reflexivity|].
  split; [vm_compute; reflexivity|].
  split; [vm_compute; reflexivity|].
  split; [vm_compute; reflexivity|].
  split; vm_compute; reflexivity.
Qed.

(** C7: a click can change the score after the tick that ends the round.
    Easy tier, level 1, two targets found, 200 points and one second
    left; the interval fires: its update, which ends the round with no
    time left, waits for its render, and the interval is cancelled.  The
    page still shows the running round, so the click on the last target
    passes the guard of [handleCharacterClick]; the level-completion
    effect queues the score 310 and stores it as the high score.  Once
    everything is rendered the round is over with no time left and 310
    points at level 2.  Had the tick been rendered before the click, the
    click would have changed nothing. *)
Theorem click_after_timeout_scores :
  gameState twoFoundAt1 = mkGameState 200 1 true false easy 1
  /\ enabled twoFoundAt1 (IntervalTick 0) = true
  /\ pending (pageFire (quiet twoFoundAt1))
     = [Ticked (mkGameState 200 0 true true easy 1)]
  /\ intervals (shown (pageFire (quiet twoFoundAt1))) = ∅
  /\ enabled (shown (pageFire (quiet twoFoundAt1))) (CharacterClick "goofy-2")
     = true
  /\ gameState (shown (clickBehindTick twoFoundAt1 "goofy-2"))
     = mkGameState 310 0 true true easy 2
  /\ highScore twoFoundAt1 = JS.Num 0
  /\ highScore (shown (clickBehindTick twoFoundAt1 "goofy-2")) = JS.Num 310
  /\ localStorage (shown (clickBehindTick twoFoundAt1 "goofy-2"))
       !! highScoreKey
     = Some "310"
  /\ idle (clickBehindTick twoFoundAt1 "goofy-2") = true
  /\ gameState
       (shown (pageSettle
                 (pageClick "goofy-2"
                    (pageSettle (pageFire (quiet twoFoundAt1))))))
     = mkGameState 200 0 true true easy 1.
Proof.
  split; [vm_compute; reflexivity|].
  split; [vm_compute; reflexivity|].
  split; [vm_compute; reflexivity|].
  split; [vm_compute; reflexivity|].
  split; [vm_compute; reflexivity|].
  split; [vm_compute; reflexivity|].
  split; [vm_compute; reflexivity|].
  split; [vm_compute; reflexivity|].
  split; [vm_compute; reflexivity|].
  split; vm_compute; reflexivity.
Qed.

(** *** Clicks with nothing waiting *)

(** A click on a page on which nothing waits is the commit of the click
    handler. *)
Lemma pageClick_quiet cid w :
  pageClick cid (quiet w)
  = if active w then pageEffects (quiet (handleCharacterClick cid w))
    else quiet w.
Proof.
  unfold pageClick, handleCharacterClick, active, quiet. page_simpl.
  destruct (gameStarted (gameState w)), (gameOver (gameState w)); reflexivity.
Qed.

(** A tick on a page on which nothing waits, once rendered, is the commit
    of the interval callback. *)
Lemma pageFire_quiet w :
  pageRender (pageFire (quiet w)) = pageEffects (quiet (tick w)).
Proof.
  unfold pageFire, quiet, tick, tickState, tickClears.
  cbn [idle pending pendingHighScore pendingScope]. page_simpl.
  unfold pageRender. cbn [idle pending pendingHighScore pendingScope].
  page_simpl. cbn [fold_left applyUpdate fst snd default].
  destruct (timeLeft (gameState w) <=? 1); reflexivity.
Qed.

Section Agreement.

Variable random : nat -> Q.
Variable store : gmap string string.

(** A tick that is rendered before anything else happens is the tick of
    [dispatch]. *)
Lemma pageFire_dispatch w t :
  pageSettle (pageRender (pageFire (quiet w)))
  = quiet (dispatch random w (IntervalTick t)).
Proof. rewrite pageFire_quiet. apply pageSettle_effects. Qed.

(** A click on a page on which nothing waits is the click of [dispatch]. *)
Lemma pageClick_dispatch w cid :
  reachable random store w ->
  pageSettle (pageClick cid (quiet w))
  = quiet (dispatch random w (CharacterClick cid)).
Proof.
  intros Hr. destruct (reachable_consistent random store w Hr) as [Hc Hs].
  rewrite pageClick_quiet. destruct (active w) eqn:Ha.
  - apply pageSettle_effects.
  - rewrite (dispatch_click_inactive random w cid Hc Hs Ha).
    apply pageSettle_quiet.
Qed.

(** If the click does not complete the level, nothing waits after it. *)
Lemma pageClick_running w cid :
  active w = true ->
  levelComplete (handleCharacterClick cid w) = false ->
  pageClick cid (quiet w) = quiet (dispatch random w (CharacterClick cid)).
Proof.
  intros Ha Hlc. rewrite pageClick_quiet, Ha.
  destruct (active_inv w Ha) as [Hst Hov].
  assert (Hovh : gameOver (gameState (handleCharacterClick cid w)) = false).
  { destruct (handleCharacterClick_frame cid w) as (_ & _ & Ho & _).
    cbv zeta in Ho. rewrite Ho. exact Hov. }
  unfold dispatch, handle. rewrite (settle_quiet _ Hlc Hovh).
  apply pageEffects_quiet; assumption.
Qed.

(** Clicking every remaining target, starting with nothing waiting and
    with no tick in between, goes through the worlds of [clicks]. *)
Lemma pageClicks_find_every_target (ids : list string) : forall w,
  reachable random store w -> active w = true ->
  ids ≡ₚ (Character.id <$> remaining (characters w)) ->
  pageSettle (pageClicks (quiet w) ids) = quiet (clicks random w ids).
Proof.
  induction ids as [|cid rest IH]; intros w Hr Ha Hperm.
  - reflexivity.
  - assert (Hin : cid ∈ Character.id <$> remaining (characters w)).
    { rewrite <- Hperm. left. }
    apply list_elem_of_fmap in Hin as (c & -> & Hin).
    destruct (click_remaining random store w c Hr Ha Hin) as (Hen & Hgs & Hne & Hp).
    cbv zeta in Hgs, Hp.
    set (h := handleCharacterClick (Character.id c) w) in *.
    assert (Hrest : rest ≡ₚ Character.id <$> remaining (characters h)).
    { apply (Permutation_cons_inv (a := Character.id c)).
      rewrite Hperm. exact Hp. }
    unfold pageClicks, clicks. cbn [fold_left].
    fold (pageClicks (pageClick (Character.id c) (quiet w)) rest).
    fold (clicks random (dispatch random w (CharacterClick (Character.id c))) rest).
    destruct rest as [|cid2 rest].
    + unfold pageClicks, clicks. cbn [fold_left].
      apply pageClick_dispatch, Hr.
    + assert (Hlc : levelComplete h = false).
      { destruct (levelComplete h) eqn:E; [|reflexivity].
        unfold levelComplete in E. apply andb_true_iff in E as [_ E].
        apply allGoofysFound_remaining in E as [_ E].
        rewrite E in Hrest. apply Permutation_nil_r in Hrest. discriminate. }
      rewrite (pageClick_running w _ Ha Hlc).
      assert (Hd : dispatch random w (CharacterClick (Character.id c)) = h).
      { unfold dispatch, handle. fold h. apply settle_quiet; [exact Hlc|].
        rewrite Hgs. apply (active_inv w Ha). }
      apply IH.
      * apply reachable_step; assumption.
      * rewrite Hd. unfold active. rewrite Hgs. exact Ha.
      * rewrite Hd. exact Hrest.
Qed.

(** X11: clicking every remaining target once, in any order, wins the
    round, provided no update is waiting at the first click and no tick
    fires before the last.  From a reachable running round, for any list
    of ids that is a permutation of the ids of the targets still to find,
    clicking them in that order and rendering what waits ends the round
    over with the time left unchanged, with [100 * level] per click plus
    [10 * timeLeft] added to the score, the level incremented, no target
    remaining, the interval cancelled and nothing waiting. *)
Theorem clicking_every_target_wins (ids : list string) : forall w,
  reachable random store w -> active w = true ->
  ids ≡ₚ (Character.id <$> remaining (characters w)) ->
  let g := gameState w in
  let p := pageSettle (pageClicks (quiet w) ids) in
  gameState (shown p)
  = mkGameState
      (score g + 100 * level g * Z.of_nat (length ids) + 10 * timeLeft g)
      (timeLeft g) true true (difficulty g) (level g + 1)
  /\ remaining (characters (shown p)) = []
  /\ intervals (shown p) = ∅
  /\ idle p = true.
Proof.
  intros w Hr Ha Hperm g p. subst p.
  rewrite (pageClicks_find_every_target ids w Hr Ha Hperm).
  destruct (clicks_find_every_target random store ids w Hr Ha Hperm)
    as (Hg & Hrem & Hiv).
  cbv zeta in Hg. unfold quiet. page_simpl.
  split; [exact Hg|]. split; [exact Hrem|]. split; [exact Hiv|reflexivity].
Qed.

(** X12: wrong clicks cost 25 points each, down to 0, and nothing else,
    provided no update is waiting at the first click and no tick fires in
    between.  In a reachable running round, clicking a bystander [n]
    times leaves the page as it is except for the score, which becomes
    [max(0, score - 25 * n)]: the characters, the time, the level, the
    interval and the high score are untouched, the round goes on and
    nothing waits. *)
Theorem wrong_clicks_cost_25 (n : nat) : forall w c,
  reachable random store w -> active w = true ->
  c ∈ characters w -> Character.isGoofy c = false ->
  pageClicks (quiet w) (replicate n (Character.id c))
  = quiet
      (mkWorld
         (setScore (Z.max 0 (score (gameState w) - 25 * Z.of_nat n))
            (gameState w))
         (characters w) (scopeVisible w) (highScore w) (localStorage w)
         (timerRef w) (intervals w) (nextInterval w) (draws w)).
Proof.
  induction n as [|n IH]; intros w c Hr Ha Hin Hg.
  - destruct (reachable_consistent random store w Hr) as [Hc _].
    pose proof (cons_score w Hc) as Hsc.
    unfold pageClicks. cbn [replicate fold_left]. unfold setScore.
    replace (Z.max 0 (score (gameState w) - 25 * Z.of_nat 0))
      with (score (gameState w)) by lia.
    destruct w as [[sc tl st ov df lv] cs sv hs ls tr iv ni dr]. reflexivity.
  - destruct (dispatch_bystander random store w c Hr Ha Hin Hg) as [Hen Hd].
    destruct (active_inv w Ha) as [Hst Hov].
    assert (Hr1 : reachable random store
                    (dispatch random w (CharacterClick (Character.id c))))
      by (apply reachable_step; assumption).
    assert (Hlc : levelComplete (handleCharacterClick (Character.id c) w)
                  = false).
    { destruct (levelComplete (handleCharacterClick (Character.id c) w))
        eqn:E; [|reflexivity].
      pose proof (settle_won _ E) as Hw. cbv zeta in Hw.
      unfold dispatch, handle in Hd. rewrite Hd in Hw.
      apply (f_equal (fun x => gameOver (gameState x))) in Hw.
      unfold setScore in Hw. world_simpl. congruence. }
    unfold pageClicks. cbn [replicate fold_left].
    fold (pageClicks (pageClick (Character.id c) (quiet w))
            (replicate n (Character.id c))).
    rewrite (pageClick_running w _ Ha Hlc).
    rewrite (IH _ c Hr1).
    + rewrite Hd. unfold setScore. world_simpl. do 3 f_equal. lia.
    + rewrite Hd. unfold active, setScore. world_simpl.
      rewrite Hst, Hov. reflexivity.
    + rewrite Hd. exact Hin.
    + exact Hg.
Qed.

End Agreement.

(** Witness of [clicking_every_target_wins]: the three targets of the easy
    round, clicked last to first when 60 seconds are left. *)
Lemma clicking_every_target_wins_witness :
  gameState
    (shown (pageSettle
              (pageClicks (quiet demoStarted)
                 ["goofy-2"; "goofy-1"; "goofy-0"])))
  = mkGameState (0 + 100 * 1 * 3 + 10 * 60) 60 true true easy (1 + 1)
  /\ remaining
       (characters
          (shown (pageSettle
                    (pageClicks (quiet demoStarted)
                       ["goofy-2"; "goofy-1"; "goofy-0"]))))
     = [].
Proof.
  assert (Hp : ["goofy-2"; "goofy-1"; "goofy-0"]
               ≡ₚ (Character.id <$> remaining (characters demoStarted))).
  { change (Character.id <$> remaining (characters demoStarted))
      with ["goofy-0"; "goofy-1"; "goofy-2"].
    exact (Permutation_sym (Permutation_rev ["goofy-0"; "goofy-1"; "goofy-2"])). }
  destruct (clicking_every_target_wins demoRandom ∅ _ demoStarted
              demoStarted_reachable ltac:(vm_compute; reflexivity) Hp)
    as (Hg & Hrem & _).
  split; [exact Hg | exact Hrem].
Defined.

(** Witness of [wrong_clicks_cost_25]: after one target (100 points), five
    clicks on the bystander [char-4] leave no points. *)
Lemma wrong_clicks_cost_25_witness :
  score (gameState
           (shown (pageClicks
                     (quiet (dispatch demoRandom demoStarted
                               (CharacterClick "goofy-0")))
                     (replicate 5 "char-4"))))
  = Z.max 0 (100 - 25 * 5).
Proof.
  assert (Hr : reachable demoRandom ∅
                 (dispatch demoRandom demoStarted (CharacterClick "goofy-0")))
    by (apply reachable_step;
        [exact demoStarted_reachable | vm_compute; reflexivity]).
  assert (Hin : nth 7 (characters demoStarted) (Character.mk "" 0 0 false false "")
                ∈ characters (dispatch demoRandom demoStarted
                                (CharacterClick "goofy-0"))).
  { apply list_elem_of_In. vm_compute. do 7 right. left. reflexivity. }
  pose proof (wrong_clicks_cost_25 demoRandom ∅ 5 _ _
                Hr ltac:(vm_compute; reflexivity) Hin
                ltac:(vm_compute; reflexivity)) as H.
  exact (f_equal (fun p => score (gameState (shown p))) H).
Defined.

(** ** Where the characters are placed *)

Section Placement.

Variable random : nat -> Q.
Hypothesis random_unit : forall k, (0 <= random k)%Q /\ (random k < 1)%Q.

Lemma emoji_in_palette k :
  default "" (index CHARACTER_EMOJIS
                (Qfloor (random k * inject_Z (Z.of_nat (length CHARACTER_EMOJIS)))))
  ∈ CHARACTER_EMOJIS.
Proof.
  destruct (random_unit k) as [H0 H1].
  change (inject_Z (Z.of_nat (length CHARACTER_EMOJIS))) with (inject_Z 10).
  set (q := (random k * inject_Z 10)%Q).
  assert (Hq0 : (0 <= q)%Q) by (subst q; change (inject_Z 10) with (10 # 1)%Q; lra).
  assert (Hq1 : (q < inject_Z 10)%Q)
    by (subst q; change (inject_Z 10) with (10 # 1)%Q; lra).
  pose proof (Qfloor_le q) as Hfl. pose proof (Qlt_floor q) as Hfu.
  assert (Hlo : 0 <= Qfloor q).
  { assert (inject_Z 0 < inject_Z (Qfloor q + 1))%Q as H
      by (change (inject_Z 0) with 0%Q; lra).
    rewrite <- Zlt_Qlt in H. lia. }
  assert (Hhi : Qfloor q < 10).
  { rewrite Zlt_Qlt. lra. }
  unfold index. destruct (Qfloor q <? 0) eqn:E; [apply Z.ltb_lt in E; lia|].
  destruct (lookup_lt_is_Some_2 CHARACTER_EMOJIS (Z.to_nat (Qfloor q)))
    as [e He]; [change (length CHARACTER_EMOJIS) with 10%nat; lia|].
  rewrite He. cbn [default]. apply list_elem_of_lookup_2 in He. exact He.
Qed.

Lemma placement_loops :
  let P := fun c =>
    (5 <= Character.x c)%Q /\ (Character.x c < 90)%Q
    /\ (15 <= Character.y c)%Q /\ (Character.y c < 90)%Q
    /\ if Character.isGoofy c then Character.emoji c = GOOFY_EMOJI
       else Character.emoji c ∈ CHARACTER_EMOJIS in
  forall n i cs k,
    Forall P cs ->
    Forall P (fst (forLoop (pushGoofy random) i n (cs, k)))
    /\ Forall P (fst (forLoop (pushRegular random) i n (cs, k))).
Proof.
  intros P. induction n as [|n IH]; intros i cs k Hcs; cbn [forLoop].
  - split; exact Hcs.
  - destruct (random_unit k) as [Hx0 Hx1].
    destruct (random_unit (S k)) as [Hy0 Hy1].
    split.
    + apply IH. apply Forall_app. split; [exact Hcs|].
      constructor; [|constructor]. unfold P. cbn.
      repeat split; try lra.
    + apply IH. apply Forall_app. split; [exact Hcs|].
      constructor; [|constructor]. unfold P. cbn [Character.x Character.y
        Character.isGoofy Character.emoji].
      repeat split; try lra. apply emoji_in_palette.
Qed.

(** X13: with a random source in [0, 1), every generated character lies at
    x in [5, 90) and y in [15, 90) (percent of the viewport), every target
    shows the target emoji and every bystander an emoji of the palette,
    for every tier and level. *)
Theorem generated_within_bounds d lvl n :
  Forall
    (fun c =>
       (5 <= Character.x c)%Q /\ (Character.x c < 90)%Q
       /\ (15 <= Character.y c)%Q /\ (Character.y c < 90)%Q
       /\ if Character.isGoofy c then Character.emoji c = GOOFY_EMOJI
          else Character.emoji c ∈ CHARACTER_EMOJIS)
    (fst (generateCharacters random d lvl n)).
Proof.
  unfold generateCharacters. cbv zeta.
  match goal with
  | |- Forall _ (fst (forLoop _ 0 ?r (forLoop _ 0 ?g _))) =>
      pose proof (proj1 (placement_loops g 0 [] n (Forall_nil_2 _))) as Hg;
      destruct (forLoop (pushGoofy random) 0 g ([], n)) as [cs k];
      exact (proj2 (placement_loops r 0 cs k Hg))
  end.
Qed.

End Placement.

Lemma demoRandom_unit k : (0 <= demoRandom k)%Q /\ (demoRandom k < 1)%Q.
Proof.
  unfold demoRandom, Qle, Qlt. cbn [Qnum Qden].
  pose proof (Nat.mod_upper_bound k 10 ltac:(lia)). lia.
Qed.

(** Witness of [generated_within_bounds]: the fixed random source. *)
Lemma generated_within_bounds_witness :
  Forall
    (fun c => (5 <= Character.x c)%Q /\ (Character.x c < 90)%Q
              /\ (15 <= Character.y c)%Q /\ (Character.y c < 90)%Q)
    (fst (generateCharacters demoRandom hard 3 0)).
Proof.
  eapply Forall_impl;
    [exact (generated_within_bounds demoRandom demoRandom_unit hard 3 0)|].
  cbn beta. intros c (H1 & H2 & H3 & H4 & _). auto.
Defined.

(** ** The order of the generated characters *)

Section Layout.

Variable random : nat -> Q.

Lemma goofy_loop_layout n : forall i cs k,
  Character.isGoofy <$> fst (forLoop (pushGoofy random) i n (cs, k))
  = (Character.isGoofy <$> cs) ++ replicate n true
  /\ snd (forLoop (pushGoofy random) i n (cs, k)) = (k + 2 * n)%nat.
Proof.
  induction n as [|n IH]; intros i cs k; cbn [forLoop replicate].
  - cbn. rewrite app_nil_r. split; [reflexivity|lia].
  - destruct (pushGoofy_spec random i cs k) as (c & -> & Hg & _).
    destruct (IH (S i) (cs ++ [c]) (S (S k))) as [H1 H2].
    rewrite H1, H2, fmap_app, <- app_assoc. cbn. rewrite Hg.
    split; [reflexivity|lia].
Qed.

Lemma regular_loop_layout n : forall i cs k,
  Character.isGoofy <$> fst (forLoop (pushRegular random) i n (cs, k))
  = (Character.isGoofy <$> cs) ++ replicate n false
  /\ snd (forLoop (pushRegular random) i n (cs, k)) = (k + 3 * n)%nat.
Proof.
  induction n as [|n IH]; intros i cs k; cbn [forLoop replicate].
  - cbn. rewrite app_nil_r. split; [reflexivity|lia].
  - destruct (pushRegular_spec random i cs k) as (c & -> & Hg & _).
    destruct (IH (S i) (cs ++ [c]) (S (S (S k)))) as [H1 H2].
    rewrite H1, H2, fmap_app, <- app_assoc. cbn. rewrite Hg.
    split; [reflexivity|lia].
Qed.

(** X14: the generator lists the targets first and then the bystanders:
    with [g] targets and [r] bystanders the ids are [goofy-0 .. goofy-(g-1)]
    followed by [char-0 .. char-(r-1)], all different; and it draws exactly
    [2 g + 3 r] random numbers (two per target, three per bystander). *)
Theorem generated_layout d lvl n :
  let g := Z.to_nat (Z.min (goofyCount (DIFFICULTIES d) + (lvl - 1) / 2) 12) in
  let r := Z.to_nat (Z.min (totalCharacters (DIFFICULTIES d) + (lvl - 1) * 5) 80
                     - Z.min (goofyCount (DIFFICULTIES d) + (lvl - 1) / 2) 12) in
  let gen := generateCharacters random d lvl n in
  Character.id <$> fst gen
  = ((fun j => "goofy-" +:+ pretty j) <$> seq 0 g)
    ++ ((fun j => "char-" +:+ pretty j) <$> seq 0 r)
  /\ Character.isGoofy <$> fst gen = replicate g true ++ replicate r false
  /\ NoDup (Character.id <$> fst gen)
  /\ snd gen = (n + 2 * g + 3 * r)%nat.
Proof.
  intros g r gen.
  split; [|split; [|split; [apply generate_ids_NoDup|]]];
    subst gen; unfold generateCharacters; cbv zeta; fold g r.
  - pose proof (goofy_loop_ids random g 0 [] n) as Hg.
    destruct (forLoop (pushGoofy random) 0 g ([], n)) as [cs k].
    rewrite regular_loop_ids. cbn [fst] in Hg. rewrite Hg. reflexivity.
  - destruct (goofy_loop_layout g 0 [] n) as [Hg _].
    destruct (forLoop (pushGoofy random) 0 g ([], n)) as [cs k].
    destruct (regular_loop_layout r 0 cs k) as [Hr _].
    rewrite Hr. cbn [fst] in Hg. rewrite Hg. reflexivity.
  - destruct (goofy_loop_layout g 0 [] n) as [_ Hg].
    destruct (forLoop (pushGoofy random) 0 g ([], n)) as [cs k].
    destruct (regular_loop_layout r 0 cs k) as [_ Hr].
    rewrite Hr. cbn [snd] in Hg. rewrite Hg. lia.
Qed.

End Layout.

(** ** The difficulty tier *)

Lemma settle_difficulty w :
  difficulty (gameState (settle w)) = difficulty (gameState w).
Proof.
  destruct (levelComplete w) eqn:Hc.
  - rewrite (settle_won w Hc). reflexivity.
  - destruct (gameOver (gameState w)) eqn:Ho.
    + rewrite (settle_over w Ho). reflexivity.
    + rewrite (settle_quiet w Hc Ho). reflexivity.
Qed.

Section Tier.

Variable random : nat -> Q.

(** X15: the tier changes through the selector only.  From any world,
    every event other than a selection keeps the difficulty (so do all
    effects), a selection sets it to the chosen tier, and the selector is
    not offered once a round has been started; hence a session plays one
    tier from its first round until a reset. *)
Theorem difficulty_only_by_selector :
  (forall w ev,
      (forall d, ev <> SelectDifficulty d) ->
      difficulty (gameState (dispatch random w ev)) = difficulty (gameState w))
  /\ (forall w d,
        difficulty (gameState (dispatch random w (SelectDifficulty d))) = d)
  /\ (forall w ev,
        gameStarted (gameState w) = true -> enabled w ev = true ->
        difficulty (gameState (dispatch random w ev)) = difficulty (gameState w)).
Proof.
  assert (Hframe : forall w ev,
             (forall d, ev <> SelectDifficulty d) ->
             difficulty (gameState (dispatch random w ev))
             = difficulty (gameState w)).
  { intros w ev Hev. unfold dispatch. rewrite settle_difficulty.
    destruct ev as [| | |d|cid|t]; cbn [handle]; try reflexivity.
    - destruct (Hev d eq_refl).
    - apply (handleCharacterClick_frame cid w).
    - unfold tick. destruct (timeLeft (gameState w) <=? 1); reflexivity. }
  split; [exact Hframe|]. split.
  - intros w d. unfold dispatch. rewrite settle_difficulty. reflexivity.
  - intros w ev Hst Hen. apply Hframe. intros d ->.
    cbn [enabled] in Hen. rewrite Hst in Hen. discriminate.
Qed.

End Tier.

(** Witness of [difficulty_only_by_selector]: the winning click keeps the
    easy tier. *)
Lemma difficulty_only_by_selector_witness :
  difficulty (gameState (dispatch demoRandom lastTarget (CharacterClick "goofy-2")))
  = difficulty (gameState lastTarget).
Proof.
  apply (proj1 (difficulty_only_by_selector demoRandom)). discriminate.
Defined.

(** ** The clock of the HUD *)

Lemma clock_table :
  forallb (fun n => bool_decide (clockValue (clockText (Z.of_nat n))
                                 = Some (Z.of_nat n)))
    (seq 0 600) = true.
Proof. vm_compute. reflexivity. Qed.

(** X16: the clock shows the time left as [m:ss]: for a time from 0 up to
    but excluding 600 seconds the text is one minute digit, a colon and
    exactly two second digits, and it reads back as that time; this
    covers every time left the page can reach (0 to 60). *)
Theorem clock_shows_time_left :
  (forall t, 0 <= t < 600 -> clockValue (clockText t) = Some t)
  /\ (forall random store w,
        reachable random store w ->
        clockValue (clockText (timeLeft (gameState w)))
        = Some (timeLeft (gameState w))).
Proof.
  assert (H : forall t, 0 <= t < 600 -> clockValue (clockText t) = Some t).
  { intros t Ht. pose proof clock_table as Htab.
    rewrite List.forallb_forall in Htab.
    specialize (Htab (Z.to_nat t)).
    rewrite Z2Nat.id in Htab by lia.
    apply bool_decide_eq_true in Htab; [exact Htab|].
    apply in_seq. lia. }
  split; [exact H|].
  intros random store w Hr. apply H.
  pose proof (cons_time w (proj1 (reachable_consistent random store w Hr))) as Ht.
  unfold GAME_DURATION in Ht. lia.
Qed.

(** Witness of [clock_shows_time_left]: 45 seconds read [0:45]. *)
Lemma clock_shows_time_left_witness :
  clockText 45 = "0:45" /\ clockValue (clockText 45) = Some 45.
Proof.
  split; [vm_compute; reflexivity|].
  apply (proj1 clock_shows_time_left). lia.
Defined.

(** ** Levels get harder *)

Section Harder.

Variable random : nat -> Q.

Lemma generate_sizes d lvl n :
  1 <= lvl ->
  Z.of_nat (length (fst (generateCharacters random d lvl n)))
  = Z.min (totalCharacters (DIFFICULTIES d) + (lvl - 1) * 5) 80
  /\ Z.of_nat (length (targets (fst (generateCharacters random d lvl n))))
     = Z.min (goofyCount (DIFFICULTIES d) + (lvl - 1) / 2) 12.
Proof.
  intros Hl. destruct (generate_counts random d lvl n) as (Hlen & Htg & _).
  destruct (counts_bounds d lvl Hl) as (Hg & Ht & Hgt).
  cbv zeta in *. rewrite Hlen, Htg. split; lia.
Qed.

(** X17: the rounds never get easier and the counts saturate.  For levels
    from 1, a higher level of the same tier has at least as many
    characters and at least as many targets; from level 13 on every tier
    has 80 characters and from level 19 on every tier has 12 targets; and
    at the same level a harder tier has at least as many of both. *)
Theorem harder_with_level d l1 l2 n1 n2 :
  1 <= l1 -> l1 <= l2 ->
  let size := fun d l n => length (fst (generateCharacters random d l n)) in
  let goofys := fun d l n =>
    length (targets (fst (generateCharacters random d l n))) in
  (size d l1 n1 <= size d l2 n2)%nat
  /\ (goofys d l1 n1 <= goofys d l2 n2)%nat
  /\ (13 <= l2 -> size d l2 n2 = 80%nat)
  /\ (19 <= l2 -> goofys d l2 n2 = 12%nat)
  /\ (size easy l1 n1 <= size medium l1 n1 <= size hard l1 n1)%nat
  /\ (goofys easy l1 n1 <= goofys medium l1 n1 <= goofys hard l1 n1)%nat.
Proof.
  intros H1 H12 size goofys. subst size goofys. cbv beta.
  destruct (generate_sizes d l1 n1 H1) as [Hs1 Hg1].
  destruct (generate_sizes d l2 n2 ltac:(lia)) as [Hs2 Hg2].
  destruct (generate_sizes easy l1 n1 H1) as [Hse Hge].
  destruct (generate_sizes medium l1 n1 H1) as [Hsm Hgm].
  destruct (generate_sizes hard l1 n1 H1) as [Hsh Hgh].
  assert (Hd : (l1 - 1) / 2 <= (l2 - 1) / 2)
    by (apply Z.div_le_mono; lia).
  assert (Hd0 : 0 <= (l1 - 1) / 2) by (apply Z.div_pos; lia).
  assert (Hd19 : 19 <= l2 -> 9 <= (l2 - 1) / 2).
  { intros H. change 9 with (18 / 2). apply Z.div_le_mono; lia. }
  cbn [DIFFICULTIES totalCharacters goofyCount] in *.
  repeat split; try (destruct d; cbn [DIFFICULTIES totalCharacters goofyCount] in *; lia).
Qed.

End Harder.

(** Witness of [harder_with_level]: medium tier, levels 2 and 5. *)
Lemma harder_with_level_witness :
  (length (fst (generateCharacters demoRandom medium 2 0))
   <= length (fst (generateCharacters demoRandom medium 5 0)))%nat
  /\ (length (targets (fst (generateCharacters demoRandom medium 2 0)))
      <= length (targets (fst (generateCharacters demoRandom medium 5 0))))%nat.
Proof.
  destruct (harder_with_level demoRandom medium 2 5 0 0 ltac:(lia) ltac:(lia))
    as (H1 & H2 & _).
  split; [exact H1 | exact H2].
Defined.
